(** * bz4.googlecontacts: Google Forms CSV to Google Contacts CSV

    A shallow embedding of [bz4.googlecontacts.cpp]: the CSV tokenizer
    [parse_csv_line], the CSV encoder [format_csv_field], the splitter
    [splitGroupLastName] and the row loop of [main], followed by the
    properties proved about them.

    A [std::string] is a sequence of bytes, here a [list ascii]; Cyrillic
    text appears as its UTF-8 bytes, exactly as in the source file. *)

From Stdlib Require Import ZArith Lia Ascii String.
From stdpp Require Import base option list.

Local Open Scope nat_scope.
Local Open Scope list_scope.

Abbreviation str := (list ascii).

(** A string literal of the source, as its bytes. *)
Definition lit (s : string) : str := list_ascii_of_string s.

Definition dquote : ascii := ascii_of_nat 34.
Definition comma : ascii := ascii_of_nat 44.
Definition space : ascii := ascii_of_nat 32.
Definition newline : ascii := ascii_of_nat 10.

(** ** The [std::string] members the program calls

    [std::string::npos] is [None]. *)
Module StdString.

(** [s.find(c)]: index of the first occurrence of [c]. *)
Fixpoint find (c : ascii) (s : str) : option nat :=
  match s with
  | [] => None
  | x :: r => if Ascii.eqb x c then Some 0 else S <$> find c r
  end.

(** Index of the first character different from [c]. *)
Fixpoint first_not (c : ascii) (s : str) : option nat :=
  match s with
  | [] => None
  | x :: r => if Ascii.eqb x c then S <$> first_not c r else Some 0
  end.

(** [s.find_first_not_of(c, pos)]. *)
Definition find_first_not_of (c : ascii) (pos : nat) (s : str) : option nat :=
  (fun i => pos + i) <$> first_not c (drop pos s).

(** [s.find_last_not_of(c)]: index of the last character different
    from [c]. *)
Fixpoint find_last_not_of (c : ascii) (s : str) : option nat :=
  match s with
  | [] => None
  | x :: r =>
      match find_last_not_of c r with
      | Some i => Some (S i)
      | None => if Ascii.eqb x c then None else Some 0
      end
  end.

(** [s.substr(pos, n)]; [pos] is within the string at every call. *)
Definition substr (pos n : nat) (s : str) : str := take n (drop pos s).

(** [s.substr(pos)]; [pos] is within the string at every call. *)
Definition substr_from (pos : nat) (s : str) : str := drop pos s.

(** [s.erase(pos)]: drops everything from [pos] on. *)
Definition erase (pos : nat) (s : str) : str := take pos s.

Definition found (r : option nat) : bool :=
  match r with Some _ => true | None => false end.

End StdString.

(** ** [parse_csv_line] *)

(** The local variables of [parse_csv_line]: the unread part of the
    stream [ss] and the three variables the loop updates. *)
Record scanner := Scanner {
  ss : str;
  fields : list str;
  field_buffer : str;
  in_quotes : bool
}.

Definition scanner_init (line : str) : scanner :=
  {| ss := line; fields := []; field_buffer := []; in_quotes := false |}.

(** The test of [ss.peek()] against a character ([peek] gives EOF, which
    is no character, at the end of the stream). *)
Definition peek_is (c : ascii) (s : str) : bool :=
  match s with
  | x :: _ => Ascii.eqb x c
  | [] => false
  end.

(** One turn of [while (ss.get(c)) { ... }]. At the end of the stream
    [get] fails and the loop is left: the state stays as it is. *)
Definition scan_step (st : scanner) : scanner :=
  match ss st with
  | [] => st
  | c :: rest =>
      if Ascii.eqb c dquote then
        if peek_is dquote rest then
          {| ss := tail rest;
             fields := fields st;
             field_buffer := field_buffer st ++ [dquote];
             in_quotes := in_quotes st |}
        else
          {| ss := rest;
             fields := fields st;
             field_buffer := field_buffer st;
             in_quotes := negb (in_quotes st) |}
      else if Ascii.eqb c comma && negb (in_quotes st) then
        {| ss := rest;
           fields := fields st ++ [field_buffer st];
           field_buffer := [];
           in_quotes := in_quotes st |}
      else
        {| ss := rest;
           fields := fields st;
           field_buffer := field_buffer st ++ [c];
           in_quotes := in_quotes st |}
  end.

(** The loop: every turn reads at least one character, so as many turns
    as the stream has characters exhaust it ([scan_loop_exhausts]). *)
Definition scan_loop (st : scanner) : scanner :=
  Nat.iter (length (ss st)) scan_step st.

(** The state in which the loop of [parse_csv_line line] is left. *)
Definition scan_line (line : str) : scanner := scan_loop (scanner_init line).

Definition parse_csv_line (line : str) : list str :=
  let st := scan_line line in
  fields st ++ [field_buffer st].

(** ** [format_csv_field] *)

Definition format_csv_field (field : str) : str :=
  if StdString.found (StdString.find comma field)
     || StdString.found (StdString.find dquote field)
     || StdString.found (StdString.find newline field)
  then
    let escaped_field :=
      fold_left
        (fun escaped_field c =>
           if Ascii.eqb c dquote then escaped_field ++ [dquote; dquote]
           else escaped_field ++ [c])
        field [dquote] in
    escaped_field ++ [dquote]
  else field.

(** ** [splitGroupLastName]

    The two output parameters are returned as a pair [(group, lastName)]. *)
Definition splitGroupLastName (combined : str) : str * str :=
  match combined with
  | [] => ([], [])
  | _ =>
      match StdString.find space combined with
      | Some first_space =>
          let group := StdString.substr 0 first_space combined in
          let group :=
            match StdString.find_last_not_of space group with
            | Some last_char_group => StdString.erase (last_char_group + 1) group
            | None => []
            end in
          let lastName :=
            match StdString.find_first_not_of space first_space combined with
            | Some last_name_start => StdString.substr_from last_name_start combined
            | None => []
            end in
          (group, lastName)
      | None => ([], combined)
      end
  end.

(** ** The row loop of [main] *)

Definition NUM_OUTPUT_COLUMNS : nat := 23.
Definition INPUT_IDX_FIRSTNAME : nat := 2.
Definition INPUT_IDX_GROUPLASTNAME : nat := 3.
Definition INPUT_IDX_EMAILLOGIN : nat := 4.
Definition INPUT_IDX_EMAILCREATED : nat := 5.
Definition INPUT_IDX_PHONE : nat := 6.
Definition INPUT_NUM_COLUMNS_EXPECTED : nat := 7.

Definition output_header : str :=
  lit "First Name,Middle Name,Last Name,Phonetic First Name,Phonetic Middle Name,Phonetic Last Name,Name Prefix,Name Suffix,Nickname,File As,Organization Name,Organization Title,Organization Department,Birthday,Notes,Photo,Labels,E-mail 1 - Label,E-mail 1 - Value,E-mail 2 - Label,E-mail 2 - Value,Phone 1 - Label,Phone 1 - Value".

Arguments output_header : simpl never.

(** The UTF-8 byte order mark [0xEF 0xBB 0xBF]. *)
Definition BOM : str := [ascii_of_nat 239; ascii_of_nat 187; ascii_of_nat 191].

(** The filling of [output_fields] inside the [try] block. The vector's
    [operator[]] does not check its index: reading [input_fields] out of
    range has no defined result, which is [None] here. The indices
    written in [output_fields] are constants below its size. *)
Definition output_fields (input_fields : list str) (contact_group_label : str)
  : option (list str) :=
  let output_fields : list str := replicate NUM_OUTPUT_COLUMNS [] in
  first_name ← input_fields !! INPUT_IDX_FIRSTNAME;
  let output_fields := <[0 := first_name]> output_fields in
  combined ← input_fields !! INPUT_IDX_GROUPLASTNAME;
  let '(group, lastName) := splitGroupLastName combined in
  let output_fields :=
    match group with
    | _ :: _ => <[2 := group ++ lit " " ++ lastName]> output_fields
    | [] => <[2 := lastName]> output_fields
    end in
  let output_fields := <[16 := contact_group_label]> output_fields in
  email_created ← input_fields !! INPUT_IDX_EMAILCREATED;
  let output_fields := <[18 := email_created]> output_fields in
  email_login ← input_fields !! INPUT_IDX_EMAILLOGIN;
  let output_fields := <[20 := email_login]> output_fields in
  phone ← input_fields !! INPUT_IDX_PHONE;
  let output_fields := <[22 := phone]> output_fields in
  Some output_fields.

(** One turn of the [for] loop that writes a row: the field at index
    [i], formatted, then a comma unless it is the last one. *)
Definition write_field (output_fields : list str) (output_file : str) (i : nat) : str :=
  let output_file :=
    output_file ++ format_csv_field (default [] (output_fields !! i)) in
  if i <? length output_fields - 1 then output_file ++ [comma] else output_file.

(** The [for] loop and the end of line after it: what is appended to
    [output_file] for one row. The loop runs for [i = 0 .. size - 1]; it
    does not run for an empty vector, so [size - 1] is never taken of
    zero. *)
Definition write_row (output_fields : list str) : str :=
  fold_left (write_field output_fields) (seq 0 (length output_fields)) []
  ++ [newline].

(** What the loop writes on [std::cerr]: the two warnings, with the
    values they print. *)
Inductive message :=
| EmptyLineWarning (line_number : Z)
| TooFewColumnsWarning (line_number : Z) (found : nat) (line : str).

(** The variables of the row loop, and the two streams it writes. *)
Record run_state := RunState {
  is_first_line : bool;
  line_number : Z;
  processed_count : Z;
  output_file : str;
  cerr : list message
}.

Definition INT_MAX : Z := 2147483647.

(** [x++] on an [int]: beyond [INT_MAX] the result is undefined, which
    is [None]. *)
Definition int_incr (x : Z) : option Z :=
  if (x <? INT_MAX)%Z then Some (x + 1)%Z else None.

(** The body of [while (std::getline(input_file, line))] for one line.
    Nothing in the [try] block throws (the vector accesses are unchecked
    and [substr] is called within the string), so the [catch] clauses are
    not entered. *)
Definition process_line (contact_group_label line : str) (st : run_state)
  : option run_state :=
  n ← int_incr (line_number st);
  match line with
  | [] =>
      Some {| is_first_line := is_first_line st;
              line_number := n;
              processed_count := processed_count st;
              output_file := output_file st;
              cerr := cerr st ++ [EmptyLineWarning n] |}
  | _ :: _ =>
      if is_first_line st then
        Some {| is_first_line := false;
                line_number := n;
                processed_count := processed_count st;
                output_file := output_file st;
                cerr := cerr st |}
      else
        let input_fields := parse_csv_line line in
        if length input_fields <? INPUT_NUM_COLUMNS_EXPECTED then
          Some {| is_first_line := is_first_line st;
                  line_number := n;
                  processed_count := processed_count st;
                  output_file := output_file st;
                  cerr := cerr st
                          ++ [TooFewColumnsWarning n (length input_fields) line] |}
        else
          row ← output_fields input_fields contact_group_label;
          count ← int_incr (processed_count st);
          Some {| is_first_line := is_first_line st;
                  line_number := n;
                  processed_count := count;
                  output_file := output_file st ++ write_row row;
                  cerr := cerr st |}
  end.

(** [std::getline] on a stream holding [s]: the characters before the
    first newline, and what is left after that newline. At the end of
    the stream nothing is read and the call fails. *)
Fixpoint break_line (s : str) : str * str :=
  match s with
  | [] => ([], [])
  | c :: r =>
      if Ascii.eqb c newline then ([], r)
      else let '(l, r') := break_line r in (c :: l, r')
  end.

Definition getline (s : str) : option (str * str) :=
  match s with
  | [] => None
  | _ :: _ => Some (break_line s)
  end.

(** The lines that successive calls of [std::getline] deliver until one
    fails ([getlines_getline]). *)
Fixpoint getlines (s : str) : list str :=
  match s with
  | [] => []
  | c :: r =>
      if Ascii.eqb c newline then [] :: getlines r
      else
        match getlines r with
        | [] => [[c]]
        | l :: ls => (c :: l) :: ls
        end
  end.

(** The row loop over the lines read. *)
Fixpoint row_loop (contact_group_label : str) (lines : list str) (st : run_state)
  : option run_state :=
  match lines with
  | [] => Some st
  | line :: lines =>
      st ← process_line contact_group_label line st;
      row_loop contact_group_label lines st
  end.

(** The state in which the row loop is entered: the byte order mark and
    the header line are written. *)
Definition run_init : run_state :=
  {| is_first_line := true;
     line_number := 0;
     processed_count := 0;
     output_file := BOM ++ output_header ++ [newline];
     cerr := [] |}.

(** [main] from the prompt for the label on, for a run in which both
    files open: [cin] and [input_file] are the characters the two
    streams deliver. The result is the state after the loop;
    [processed_count] of it is the count printed at the end. *)
Definition main (cin input_file : str) : option run_state :=
  let contact_group_label :=
    match getline cin with
    | Some (l, _) => l
    | None => []
    end in
  row_loop contact_group_label (getlines input_file) run_init.

(** ** Definitions that follow the specification's words

    They are what the code is compared with. *)

(** The tokenizer step as the specification words it (section 4.1): a
    double quote starts an escaped quote only if the flag is already set
    and the next character is a double quote too. *)
Definition scan_step_spec (st : scanner) : scanner :=
  match ss st with
  | [] => st
  | c :: rest =>
      if Ascii.eqb c dquote then
        if in_quotes st && peek_is dquote rest then
          {| ss := tail rest;
             fields := fields st;
             field_buffer := field_buffer st ++ [dquote];
             in_quotes := in_quotes st |}
        else
          {| ss := rest;
             fields := fields st;
             field_buffer := field_buffer st;
             in_quotes := negb (in_quotes st) |}
      else if Ascii.eqb c comma && negb (in_quotes st) then
        {| ss := rest;
           fields := fields st ++ [field_buffer st];
           field_buffer := [];
           in_quotes := in_quotes st |}
      else
        {| ss := rest;
           fields := fields st;
           field_buffer := field_buffer st ++ [c];
           in_quotes := in_quotes st |}
  end.

Definition scan_loop_spec (st : scanner) : scanner :=
  Nat.iter (length (ss st)) scan_step_spec st.

Definition parse_csv_line_spec (line : str) : list str :=
  let st := scan_loop_spec (scanner_init line) in
  fields st ++ [field_buffer st].

(** A field wrapped in double quotes, every double quote of it doubled. *)
Definition double_dquote (c : ascii) : str :=
  if Ascii.eqb c dquote then [dquote; dquote] else [c].

Definition quoted (field : str) : str :=
  [dquote] ++ flat_map double_dquote field ++ [dquote].

(** A field that has a comma, a double quote or a newline. *)
Definition needs_quotes (field : str) : Prop :=
  In comma field \/ In dquote field \/ In newline field.

(** Spaces removed at the end, and at the start. *)
Fixpoint trim_trailing_spaces (s : str) : str :=
  match s with
  | [] => []
  | c :: r =>
      match trim_trailing_spaces r with
      | [] => if Ascii.eqb c space then [] else [c]
      | r' => c :: r'
      end
  end.

Fixpoint skip_leading_spaces (s : str) : str :=
  match s with
  | [] => []
  | c :: r => if Ascii.eqb c space then skip_leading_spaces r else s
  end.

(** The last name of an output row: group and last name of the combined
    field with one space between them, or the last name alone when there
    is no group. *)
Definition group_and_last_name (combined : str) : str :=
  let '(group, lastName) := splitGroupLastName combined in
  match group with
  | [] => lastName
  | _ :: _ => group ++ [space] ++ lastName
  end.

(** A string without a carriage return (character 13). *)
Definition no_carriage_return (s : str) : Prop :=
  Forall (fun c => c <> ascii_of_nat 13) s.

(** A string without a newline character. *)
Definition no_newline (s : str) : Prop := Forall (fun c => c <> newline) s.

(** Strings joined by single commas. *)
Fixpoint join_commas (l : list str) : str :=
  match l with
  | [] => []
  | [x] => x
  | x :: r => x ++ [comma] ++ join_commas r
  end.

(** The row loop as the specification words the header rule
    (section 6): the first line, whatever it is, is dropped unparsed, and
    every line after it is treated as the code treats a line once the
    header is behind it. *)
Definition header_done (n : Z) : run_state :=
  {| is_first_line := false;
     line_number := n;
     processed_count := 0;
     output_file := BOM ++ output_header ++ [newline];
     cerr := [] |}.

Definition row_loop_first_line_header (contact_group_label : str) (lines : list str)
  : option run_state :=
  match lines with
  | [] => Some run_init
  | _ :: rest => row_loop contact_group_label rest (header_done 1)
  end.

(** The header rule as the specification words it, on what a run
    writes and counts. *)
Definition written_and_counted (r : option run_state) : option (str * Z) :=
  (fun st => (output_file st, processed_count st)) <$> r.

Definition first_line_is_header (contact_group_label : str) (lines : list str) : Prop :=
  written_and_counted (row_loop contact_group_label lines run_init)
  = written_and_counted (row_loop_first_line_header contact_group_label lines).

(** The state once [k] empty lines and then the header are behind. *)
Definition after_header (k : nat) : run_state :=
  {| is_first_line := false;
     line_number := Z.of_nat k + 1;
     processed_count := 0;
     output_file := BOM ++ output_header ++ [newline];
     cerr := map (fun i => EmptyLineWarning (Z.of_nat i)) (seq 1 k) |}.

(** The output file holds the byte order mark, the header line and then
    the lines [rows], each ended by a newline, and as many rows are
    counted. *)
Definition data_lines_written (st : run_state) (rows : list str) : Prop :=
  output_file st
  = BOM ++ output_header ++ [newline] ++ concat (map (fun r => r ++ [newline]) rows)
  /\ Forall no_newline rows
  /\ processed_count st = Z.of_nat (length rows).

(** A data row of the input, for the examples. *)
Definition sample_row : str :=
  lit ",Role,Ivan,ГР-1 Petrov,login@x.com,new@x.com,+79990000000".

(** ** Definitions for the further properties *)

(** The number of occurrences of a character in a string. *)
Definition count_char (c : ascii) (s : str) : nat := List.count_occ ascii_dec s c.

(** A string made of one or more double quotes and nothing else. *)
Definition only_dquotes (f : str) : bool :=
  match f with
  | [] => false
  | _ :: _ => forallb (fun c => Ascii.eqb c dquote) f
  end.

(** What the tokenizer makes of an encoded field: the field itself, or
    the field and one double quote more when it is made of double quotes
    only. *)
Definition read_back (f : str) : str :=
  if only_dquotes f then dquote :: f else f.

(** The test [line.empty()], negated, and the test on the number of
    columns, negated. *)
Definition nonempty (line : str) : bool :=
  match line with
  | [] => false
  | _ :: _ => true
  end.

Definition enough_fields (line : str) : bool :=
  INPUT_NUM_COLUMNS_EXPECTED <=? length (parse_csv_line line).

(** The data rows of a file: of the lines that are not empty, those
    after the first one that have enough fields. *)
Definition data_rows (lines : list str) : list str :=
  List.filter enough_fields (tail (List.filter nonempty lines)).

(** The text written for one data row. *)
Definition data_line (contact_group_label line : str) : str :=
  match output_fields (parse_csv_line line) contact_group_label with
  | Some row => write_row row
  | None => []
  end.

(** The label [main] reads: the first line of the standard input. *)
Definition first_line (cin : str) : str :=
  match getline cin with
  | Some (l, _) => l
  | None => []
  end.

(** One for a run that has met its header line, zero otherwise. *)
Definition header_seen (st : run_state) : Z :=
  if is_first_line st then 0%Z else 1%Z.

(** A warning names a line of the file by its number, counted from one,
    and says what is true of that line. *)
Definition warning_names_line (lines : list str) (m : message) : Prop :=
  match m with
  | EmptyLineWarning n =>
      (1 <= n)%Z /\ lines !! Z.to_nat (n - 1) = Some []
  | TooFewColumnsWarning n found line =>
      (1 <= n)%Z /\ lines !! Z.to_nat (n - 1) = Some line
      /\ line <> [] /\ found = length (parse_csv_line line) /\ found < 7
  end.

(** ** Characters *)

(** Case analysis on the equality of two characters. *)
Ltac ascii_cases c d :=
  let E := fresh "E" in
  destruct (Ascii.eqb c d) eqn:E;
  [apply Ascii.eqb_eq in E | apply Ascii.eqb_neq in E].

(** A character is not in a given string. *)
Ltac not_in := vm_compute; intuition discriminate.

Lemma ascii_eqb_true (a b : ascii) : Ascii.eqb a b = true <-> a = b.
Proof. apply Ascii.eqb_eq. Qed.

Lemma ascii_eqb_false (a b : ascii) : Ascii.eqb a b = false <-> a <> b.
Proof. apply Ascii.eqb_neq. Qed.

Lemma ascii_eqb_refl (a : ascii) : Ascii.eqb a a = true.
Proof. apply Ascii.eqb_refl. Qed.

(** ** [std::string] members *)

Lemma find_None (c : ascii) (s : str) :
  StdString.find c s = None <-> ~ In c s.
Proof.
  induction s as [|x r IH]; simpl.
  - tauto.
  - ascii_cases x c.
    + split; [discriminate | intros H; exfalso; apply H; now left].
    + destruct (StdString.find c r); simpl.
      * split; [discriminate |].
        intros H. destruct IH as [_ IH].
        assert (Hr : ~ In c r) by (intros Hr; apply H; now right).
        now apply IH in Hr.
      * split; [| reflexivity]. intros _ [H|H]; [congruence | tauto].
Qed.

Lemma found_find (c : ascii) (s : str) :
  StdString.found (StdString.find c s) = true <-> In c s.
Proof.
  induction s as [|x r IH]; simpl.
  - split; [discriminate | tauto].
  - ascii_cases x c; simpl.
    + split; [now left | reflexivity].
    + destruct (StdString.find c r); simpl in *.
      * split; [intros _; right; now apply IH | reflexivity].
      * split; [discriminate |]. intros [H|H]; [congruence | now apply IH].
Qed.

(** [find] gives the place of the first occurrence: what is before it
    is free of the character. *)
Lemma find_Some (c : ascii) (s : str) (i : nat) :
  StdString.find c s = Some i ->
  exists g r, s = g ++ c :: r /\ length g = i /\ ~ In c g.
Proof.
  revert i. induction s as [|x r IH]; simpl; intros i H.
  - discriminate.
  - ascii_cases x c.
    + injection H as <-. subst x. exists [], r. simpl. tauto.
    + destruct (StdString.find c r) as [j|] eqn:F; simpl in H; [| discriminate].
      injection H as <-.
      destruct (IH j eq_refl) as (g & r' & -> & Hl & Hn).
      exists (x :: g), r'. simpl. repeat split; [congruence |].
      intros [Hx|Hg]; [congruence | tauto].
Qed.

Lemma find_app_first (c : ascii) (g r : str) :
  ~ In c g -> StdString.find c (g ++ c :: r) = Some (length g).
Proof.
  induction g as [|x g IH]; simpl; intros H.
  - now rewrite ascii_eqb_refl.
  - ascii_cases x c; [exfalso; apply H; now left |].
    rewrite IH; [reflexivity | tauto].
Qed.

Lemma find_last_not_of_no_occurrence (c : ascii) (g : str) (x : ascii) :
  ~ In c (g ++ [x]) ->
  StdString.find_last_not_of c (g ++ [x]) = Some (length g).
Proof.
  induction g as [|y g IH]; simpl; intros H.
  - ascii_cases x c; [exfalso; apply H; now left | reflexivity].
  - rewrite IH; [reflexivity | tauto].
Qed.

Lemma first_not_skip (s : str) :
  match StdString.first_not space s with
  | Some i => drop i s = skip_leading_spaces s
  | None => skip_leading_spaces s = []
  end.
Proof.
  induction s as [|x r IH]; simpl.
  - reflexivity.
  - ascii_cases x space; [| reflexivity].
    destruct (StdString.first_not space r); simpl; exact IH.
Qed.

Lemma first_not_lt (c : ascii) (s : str) (i : nat) :
  StdString.first_not c s = Some i -> i < length s.
Proof.
  revert i. induction s as [|x r IH]; simpl; intros i H; [discriminate |].
  destruct (Ascii.eqb x c).
  - destruct (StdString.first_not c r) as [j|]; simpl in H; [| discriminate].
    injection H as <-. specialize (IH j eq_refl). lia.
  - injection H as <-. lia.
Qed.

(** [substr(pos)] throws for [pos] beyond the size; the position
    [find_first_not_of] gives is inside the string. *)
Lemma find_first_not_of_lt (c : ascii) (pos : nat) (s : str) (i : nat) :
  StdString.find_first_not_of c pos s = Some i -> i < length s.
Proof.
  unfold StdString.find_first_not_of.
  destruct (StdString.first_not c (drop pos s)) as [j|] eqn:F; simpl; [| discriminate].
  intros H. injection H as <-. apply first_not_lt in F.
  rewrite length_drop in F. lia.
Qed.

Lemma trim_trailing_no_space (g : str) :
  ~ In space g -> trim_trailing_spaces g = g.
Proof.
  induction g as [|x g IH]; simpl; intros H; [reflexivity |].
  rewrite IH by tauto.
  destruct g; [| reflexivity].
  ascii_cases x space; [exfalso; apply H; now left | reflexivity].
Qed.

Lemma split_at_first_space (g r : str) :
  ~ In space g ->
  splitGroupLastName (g ++ space :: r) = (g, skip_leading_spaces r).
Proof.
  intros Hg. unfold splitGroupLastName.
  destruct (g ++ space :: r) as [|c0 s0] eqn:E; [now destruct g |].
  rewrite <- E. clear c0 s0 E.
  rewrite find_app_first by assumption.
  unfold StdString.substr, StdString.erase, StdString.substr_from,
    StdString.find_first_not_of.
  rewrite drop_0, take_app_length, drop_app_length. simpl.
  f_equal.
  - destruct g as [|x g _] using rev_ind; [reflexivity |].
    rewrite find_last_not_of_no_occurrence by assumption.
    rewrite firstn_all2; [reflexivity |]. rewrite length_app. simpl. lia.
  - pose proof (first_not_skip r) as H.
    destruct (StdString.first_not space r) as [i|]; simpl; [| now rewrite H].
    replace (length g + S i) with (length (g ++ [space]) + i)
      by (rewrite length_app; simpl; lia).
    change (g ++ space :: r) with (g ++ [space] ++ r). rewrite app_assoc.
    rewrite drop_app_add. exact H.
Qed.

Lemma split_no_space (combined : str) :
  ~ In space combined -> splitGroupLastName combined = ([], combined).
Proof.
  intros H. unfold splitGroupLastName.
  destruct combined; [reflexivity |].
  apply find_None in H. now rewrite H.
Qed.

(** C5. [splitGroupLastName] cuts at the first space: the group is what
    is before it, with the spaces at its end trimmed, and the last name is
    what follows it, with the spaces at its start skipped; a string without
    a space is the last name whole, with an empty group. The three
    examples of the specification are the last three parts. *)
Theorem splitGroupLastName_spec :
  (forall g r : str, ~ In space g ->
     splitGroupLastName (g ++ space :: r)
     = (trim_trailing_spaces g, skip_leading_spaces r))
  /\ (forall combined : str, ~ In space combined ->
       splitGroupLastName combined = ([], combined))
  /\ splitGroupLastName (lit "ПМ-35 ПОНОМАРЕВ") = (lit "ПМ-35", lit "ПОНОМАРЕВ")
  /\ splitGroupLastName (lit "Иванов") = ([], lit "Иванов")
  /\ splitGroupLastName [] = ([], []).
Proof.
  split; [| split; [| repeat split]].
  - intros g r Hg. rewrite trim_trailing_no_space by assumption.
    now apply split_at_first_space.
  - exact split_no_space.
Qed.

Lemma splitGroupLastName_spec_witness :
  splitGroupLastName (lit "ab" ++ space :: lit "  cd e ") = (lit "ab", lit "cd e ")
  /\ splitGroupLastName (lit "abc") = ([], lit "abc").
Proof.
  split.
  - apply (proj1 splitGroupLastName_spec (lit "ab") (lit "  cd e ")). not_in.
  - apply (proj1 (proj2 splitGroupLastName_spec) (lit "abc")). not_in.
Defined.

(** ** The tokenizer loop *)

Section Loop.

(** A loop body that reads at least one character per turn and does
    nothing at the end of the stream. *)
Variable step : scanner -> scanner.
Hypothesis step_done : forall st, ss st = [] -> step st = st.
Hypothesis step_shorter :
  forall st, ss st <> [] -> length (ss (step st)) < length (ss st).

Lemma iter_step_done (n : nat) (st : scanner) :
  ss st = [] -> Nat.iter n step st = st.
Proof.
  intros H. induction n as [|n IH]; simpl; [reflexivity |].
  rewrite IH. now apply step_done.
Qed.

(** More turns than characters change nothing. *)
Lemma iter_step_fuel (n : nat) (st : scanner) :
  length (ss st) <= n ->
  Nat.iter n step st = Nat.iter (length (ss st)) step st.
Proof.
  revert st. induction n as [n IH] using lt_wf_ind. intros st Hn.
  destruct (ss st) as [|c r] eqn:E.
  - simpl. apply iter_step_done. exact E.
  - assert (Hs : length (ss (step st)) < length (ss st))
      by (apply step_shorter; congruence).
    rewrite E in Hs. simpl in Hs, Hn.
    destruct n as [|n]; [lia |].
    change (length (c :: r)) with (S (length r)).
    rewrite !Nat.iter_succ_r.
    rewrite (IH n) by lia. rewrite (IH (length r)) by lia. reflexivity.
Qed.

Lemma iter_step_unfold (st : scanner) :
  Nat.iter (length (ss st)) step st
  = Nat.iter (length (ss (step st))) step (step st).
Proof.
  destruct (ss st) as [|c r] eqn:E.
  - rewrite step_done by exact E. now rewrite E.
  - assert (Hs : length (ss (step st)) < length (ss st))
      by (apply step_shorter; congruence).
    rewrite E in Hs. simpl in Hs.
    change (length (c :: r)) with (S (length r)).
    rewrite Nat.iter_succ_r.
    apply iter_step_fuel. lia.
Qed.

Lemma iter_step_exhausts (st : scanner) :
  ss (Nat.iter (length (ss st)) step st) = [].
Proof.
  remember (length (ss st)) as n eqn:En.
  assert (Hn : length (ss st) <= n) by lia. clear En.
  revert st Hn. induction n as [|n IH]; intros st Hn.
  - simpl. destruct (ss st); [reflexivity | simpl in Hn; lia].
  - rewrite Nat.iter_succ_r.
    destruct (ss st) as [|c r] eqn:E.
    + rewrite step_done by exact E. rewrite iter_step_done; exact E.
    + apply IH.
      assert (Hs : length (ss (step st)) < length (ss st))
        by (apply step_shorter; congruence).
      rewrite E in Hs. simpl in Hs, Hn. lia.
Qed.

End Loop.

Lemma scan_step_done (st : scanner) : ss st = [] -> scan_step st = st.
Proof. intros H. unfold scan_step. now rewrite H. Qed.

Lemma peek_is_cons (c : ascii) (s : str) :
  peek_is c s = true -> exists r, s = c :: r.
Proof.
  destruct s as [|x r]; simpl; [discriminate |].
  intros H. apply ascii_eqb_true in H. subst. now exists r.
Qed.

Lemma scan_step_shorter (st : scanner) :
  ss st <> [] -> length (ss (scan_step st)) < length (ss st).
Proof.
  unfold scan_step. destruct (ss st) as [|c r]; [congruence |]. intros _.
  destruct (Ascii.eqb c dquote).
  - destruct (peek_is dquote r) eqn:P; simpl; [| lia].
    apply peek_is_cons in P as [r' ->]. simpl. lia.
  - destruct (Ascii.eqb c comma && negb (in_quotes st)); simpl; lia.
Qed.

Lemma scan_step_spec_done (st : scanner) : ss st = [] -> scan_step_spec st = st.
Proof. intros H. unfold scan_step_spec. now rewrite H. Qed.

Lemma scan_step_spec_shorter (st : scanner) :
  ss st <> [] -> length (ss (scan_step_spec st)) < length (ss st).
Proof.
  unfold scan_step_spec. destruct (ss st) as [|c r]; [congruence |]. intros _.
  destruct (Ascii.eqb c dquote).
  - destruct (in_quotes st); simpl; [| lia].
    destruct (peek_is dquote r) eqn:P; simpl; [| lia].
    apply peek_is_cons in P as [r' ->]. simpl. lia.
  - destruct (Ascii.eqb c comma && negb (in_quotes st)); simpl; lia.
Qed.

(** The loop goes on from the state its first turn leaves. *)
Lemma scan_loop_unfold (st : scanner) : scan_loop st = scan_loop (scan_step st).
Proof. apply iter_step_unfold; [apply scan_step_done | apply scan_step_shorter]. Qed.

(** The loop is left with the whole line read. *)
Lemma scan_loop_exhausts (st : scanner) : ss (scan_loop st) = [].
Proof. apply iter_step_exhausts; [apply scan_step_done | apply scan_step_shorter]. Qed.

Lemma scan_loop_spec_unfold (st : scanner) :
  scan_loop_spec st = scan_loop_spec (scan_step_spec st).
Proof.
  apply iter_step_unfold; [apply scan_step_spec_done | apply scan_step_spec_shorter].
Qed.

(** The turns of the loop, by the character read. *)
Lemma scan_loop_nil f b q : scan_loop (Scanner [] f b q) = Scanner [] f b q.
Proof. reflexivity. Qed.

Lemma scan_loop_escaped r f b q :
  scan_loop (Scanner (dquote :: dquote :: r) f b q)
  = scan_loop (Scanner r f (b ++ [dquote]) q).
Proof. now rewrite scan_loop_unfold. Qed.

Lemma scan_loop_toggle r f b q :
  peek_is dquote r = false ->
  scan_loop (Scanner (dquote :: r) f b q) = scan_loop (Scanner r f b (negb q)).
Proof.
  intros P. rewrite scan_loop_unfold. unfold scan_step. simpl. now rewrite P.
Qed.

Lemma scan_loop_separator r f b :
  scan_loop (Scanner (comma :: r) f b false) = scan_loop (Scanner r (f ++ [b]) [] false).
Proof. now rewrite scan_loop_unfold. Qed.

Lemma scan_loop_char c r f b q :
  c <> dquote -> c <> comma \/ q = true ->
  scan_loop (Scanner (c :: r) f b q) = scan_loop (Scanner r f (b ++ [c]) q).
Proof.
  intros Hd Hc. rewrite scan_loop_unfold. unfold scan_step. simpl.
  apply ascii_eqb_false in Hd. rewrite Hd.
  destruct Hc as [Hc| ->].
  - apply ascii_eqb_false in Hc. now rewrite Hc.
  - now rewrite andb_false_r.
Qed.

(** Induction on a line the way the tokenizer reads it: two double
    quotes at once, a double quote alone, or another character. *)
Lemma scan_ind (P : str -> Prop) :
  P [] ->
  (forall r, P r -> P (dquote :: dquote :: r)) ->
  (forall r, peek_is dquote r = false -> P r -> P (dquote :: r)) ->
  (forall c r, c <> dquote -> P r -> P (c :: r)) ->
  forall s, P s.
Proof.
  intros Hnil Hesc Htog Hchr s.
  remember (length s) as n eqn:En.
  revert s En. induction n as [n IH] using lt_wf_ind. intros s ->.
  destruct s as [|c r]; [exact Hnil |].
  ascii_cases c dquote.
  - subst c. destruct (peek_is dquote r) eqn:Pk.
    + apply peek_is_cons in Pk as [r' ->].
      apply Hesc. apply (IH (length r')); simpl; [lia | reflexivity].
    + apply Htog; [exact Pk |]. apply (IH (length r)); simpl; [lia | reflexivity].
  - apply Hchr; [assumption |]. apply (IH (length r)); simpl; [lia | reflexivity].
Qed.

(** Inside a quoted field, with no double quote left on the line,
    everything read goes to the buffer, commas too, and the flag stays. *)
Lemma scan_loop_unterminated (tail : str) (f : list str) (b : str) :
  ~ In dquote tail ->
  scan_loop (Scanner tail f b true) = Scanner [] f (b ++ tail) true.
Proof.
  revert b. induction tail as [|c r IH]; intros b H.
  - now rewrite app_nil_r.
  - rewrite scan_loop_char; [| intros ->; apply H; now left | now right].
    rewrite IH by (intros Hr; apply H; now right).
    now rewrite <- app_assoc.
Qed.

(** Reading [s ++ tail] is reading [s] and going on with [tail], unless
    [tail] starts with a double quote (which the last character of [s]
    could pair with). *)
Lemma scan_loop_app (tail : str) :
  peek_is dquote tail = false ->
  forall s f b q,
    scan_loop (Scanner (s ++ tail) f b q)
    = let st := scan_loop (Scanner s f b q) in
      scan_loop (Scanner tail (fields st) (field_buffer st) (in_quotes st)).
Proof.
  intros Pk s. induction s as [|r IH|r Pr IH|c r Hc IH] using scan_ind; intros f b q.
  - reflexivity.
  - simpl app. rewrite !scan_loop_escaped. apply IH.
  - simpl app. rewrite (scan_loop_toggle r) by exact Pr.
    rewrite scan_loop_toggle; [apply IH |].
    destruct r; [exact Pk | exact Pr].
  - simpl app. destruct q.
    + rewrite !(scan_loop_char c) by (auto). apply IH.
    + ascii_cases c comma.
      * subst c. rewrite !scan_loop_separator. apply IH.
      * rewrite !(scan_loop_char c) by (auto). apply IH.
Qed.

(** Without a comma on the line no field is ended. *)
Lemma scan_loop_no_comma (s : str) :
  ~ In comma s ->
  forall f b q, fields (scan_loop (Scanner s f b q)) = f.
Proof.
  induction s as [|r IH|r Pr IH|c r Hc IH] using scan_ind; intros H f b q.
  - reflexivity.
  - rewrite scan_loop_escaped. apply IH. simpl in H. tauto.
  - rewrite scan_loop_toggle by exact Pr. apply IH. simpl in H. tauto.
  - rewrite scan_loop_char; [| assumption |].
    + apply IH. simpl in H. tauto.
    + left. intros ->. apply H. now left.
Qed.

(** C9. [parse_csv_line] returns for every line: the loop is left with
    the line read to its end, and the result is the fields ended so far
    and then the buffer, so it has at least one field, the last of which is
    the buffer (the only field on a line without a comma). A quote that is
    never closed is no error: when the flag is set after [pre] and no double
    quote follows, the loop ends with the flag still set and all of [tail],
    commas included, is at the end of the last field. *)
Theorem parse_csv_line_total (line : str) :
  ss (scan_line line) = []
  /\ parse_csv_line line = fields (scan_line line) ++ [field_buffer (scan_line line)]
  /\ 1 <= length (parse_csv_line line)
  /\ last (parse_csv_line line) = Some (field_buffer (scan_line line))
  /\ (~ In comma line -> length (parse_csv_line line) = 1)
  /\ (forall pre tail : str,
        line = pre ++ tail ->
        in_quotes (scan_line pre) = true ->
        ~ In dquote tail ->
        in_quotes (scan_line line) = true
        /\ parse_csv_line line
           = fields (scan_line pre) ++ [field_buffer (scan_line pre) ++ tail]).
Proof.
  split; [apply scan_loop_exhausts |].
  split; [reflexivity |].
  split; [unfold parse_csv_line; rewrite length_app; simpl; lia |].
  split; [unfold parse_csv_line; apply last_snoc |].
  split.
  - intros H. unfold parse_csv_line, scan_line, scanner_init.
    now rewrite scan_loop_no_comma.
  - intros pre tail -> Hq Hn.
    unfold parse_csv_line, scan_line, scanner_init in *.
    rewrite scan_loop_app.
    + cbv zeta. rewrite Hq. rewrite scan_loop_unterminated by assumption.
      now split.
    + destruct tail as [|c r]; [reflexivity |]. simpl.
      apply ascii_eqb_false. intros ->. apply Hn. now left.
Qed.

Lemma parse_csv_line_total_witness :
  (in_quotes (scan_line (lit "a," ++ [dquote] ++ lit "b,c")) = true
   /\ parse_csv_line (lit "a," ++ [dquote] ++ lit "b,c") = [lit "a"; lit "b,c"])
  /\ length (parse_csv_line (lit "abc")) = 1.
Proof.
  split.
  - apply (proj2 (proj2 (proj2 (proj2 (proj2
             (parse_csv_line_total (lit "a," ++ [dquote] ++ lit "b,c"))))))
             (lit "a," ++ [dquote]) (lit "b,c")).
    + reflexivity.
    + reflexivity.
    + not_in.
  - apply (proj1 (proj2 (proj2 (proj2 (proj2
             (parse_csv_line_total (lit "abc"))))))).
    not_in.
Defined.

(** The examples of the specification (section 8): plain fields, a
    quoted field with a comma, a quoted field with a doubled quote. *)
Example parse_csv_line_examples :
  parse_csv_line (lit "a,b,c") = [lit "a"; lit "b"; lit "c"]
  /\ parse_csv_line ([dquote] ++ lit "a,b" ++ [dquote] ++ lit ",c")
     = [lit "a,b"; lit "c"]
  /\ parse_csv_line ([dquote] ++ lit "a" ++ [dquote; dquote] ++ lit "b"
                     ++ [dquote] ++ lit ",c")
     = [lit "a" ++ [dquote] ++ lit "b"; lit "c"].
Proof. repeat split. Qed.

(** ** The tokenizer at a double quote *)

(** What the code does when it reads a double quote: the flag is not
    looked at. *)
Lemma scan_step_dquote (rest : str) (f : list str) (b : str) (q : bool) :
  scan_step (Scanner (dquote :: rest) f b q)
  = if peek_is dquote rest
    then Scanner (tail rest) f (b ++ [dquote]) q
    else Scanner rest f b (negb q).
Proof. reflexivity. Qed.

(** The code's step is the specification's step except outside a quoted
    field in front of two double quotes. *)
Lemma scan_step_agrees (st : scanner) :
  in_quotes st = true \/ (forall r, ss st <> dquote :: dquote :: r) ->
  scan_step st = scan_step_spec st.
Proof.
  intros H. unfold scan_step, scan_step_spec.
  destruct (ss st) as [|c rest] eqn:E; [reflexivity |].
  ascii_cases c dquote; [| reflexivity].
  destruct H as [-> | H]; [reflexivity |].
  destruct (peek_is dquote rest) eqn:Pk.
  - apply peek_is_cons in Pk as [r ->]. subst c. now destruct (H r).
  - now rewrite andb_false_r.
Qed.

(** C3. On the line made of two double quotes (an empty quoted field) the
    first double quote is read with the flag not set, and the code takes it
    and the next one for an escaped quote: it puts a double quote in the
    buffer, reads both and leaves the flag as it was, so the line parses to
    one field holding a double quote. The step as the specification words it
    sets the flag and reads one character, and the line parses to one empty
    field. *)
Theorem escaped_quote_outside_quoted_field :
  in_quotes (scanner_init [dquote; dquote]) = false
  /\ scan_step (scanner_init [dquote; dquote]) = Scanner [] [] [dquote] false
  /\ scan_step_spec (scanner_init [dquote; dquote]) = Scanner [dquote] [] [] true
  /\ parse_csv_line [dquote; dquote] = [[dquote]]
  /\ parse_csv_line_spec [dquote; dquote] = [[]]
  /\ parse_csv_line (lit "a," ++ [dquote; dquote] ++ lit ",b")
     = [lit "a"; [dquote]; lit "b"]
  /\ parse_csv_line_spec (lit "a," ++ [dquote; dquote] ++ lit ",b")
     = [lit "a"; []; lit "b"].
Proof.
  assert (S1 : scan_step (scanner_init [dquote; dquote]) = Scanner [] [] [dquote] false)
    by (unfold scanner_init; rewrite scan_step_dquote; reflexivity).
  repeat split; try exact S1; vm_compute; reflexivity.
Qed.

(** ** The encoder *)

Lemma escape_loop (field acc : str) :
  fold_left
    (fun escaped_field c =>
       if Ascii.eqb c dquote then escaped_field ++ [dquote; dquote]
       else escaped_field ++ [c])
    field acc
  = acc ++ flat_map double_dquote field.
Proof.
  revert acc. induction field as [|c r IH]; intros acc; simpl.
  - now rewrite app_nil_r.
  - rewrite IH. unfold double_dquote.
    destruct (Ascii.eqb c dquote); now rewrite <- app_assoc.
Qed.

Lemma needs_quotes_test (field : str) :
  StdString.found (StdString.find comma field)
  || StdString.found (StdString.find dquote field)
  || StdString.found (StdString.find newline field) = true
  <-> needs_quotes field.
Proof.
  unfold needs_quotes. rewrite !orb_true_iff, !found_find. tauto.
Qed.

Lemma format_csv_field_quoted (field : str) :
  needs_quotes field -> format_csv_field field = quoted field.
Proof.
  intros H. apply needs_quotes_test in H.
  unfold format_csv_field, quoted. rewrite H, escape_loop.
  now rewrite <- app_assoc.
Qed.

Lemma format_csv_field_plain (field : str) :
  ~ needs_quotes field -> format_csv_field field = field.
Proof.
  intros H. unfold format_csv_field.
  destruct (_ || _ || _) eqn:E; [| reflexivity].
  now apply needs_quotes_test in E.
Qed.

Lemma needs_quotes_dec (field : str) : needs_quotes field \/ ~ needs_quotes field.
Proof.
  rewrite <- needs_quotes_test. destruct (_ || _ || _); [now left | now right].
Qed.

(** C6. The encoder gives the quoted form, the field between double quotes
    with each of its double quotes doubled, exactly when the field has a
    comma, a double quote or a newline, and gives the field itself
    otherwise. *)
Theorem format_csv_field_spec (field : str) :
  (format_csv_field field = quoted field <-> needs_quotes field)
  /\ (needs_quotes field -> format_csv_field field = quoted field)
  /\ (~ needs_quotes field -> format_csv_field field = field).
Proof.
  split; [| split].
  - split; [| apply format_csv_field_quoted].
    intros H. destruct (needs_quotes_dec field) as [|N]; [assumption |].
    rewrite format_csv_field_plain in H by assumption.
    apply (f_equal (@length ascii)) in H. unfold quoted in H.
    rewrite !length_app in H. simpl in H.
    assert (L : length field <= length (flat_map double_dquote field)).
    { clear. induction field as [|c r IH]; simpl; [lia |].
      rewrite length_app. unfold double_dquote at 1.
      destruct (Ascii.eqb c dquote); simpl; lia. }
    lia.
  - apply format_csv_field_quoted.
  - apply format_csv_field_plain.
Qed.

Lemma format_csv_field_spec_witness :
  format_csv_field (lit "a,b" ++ [dquote] ++ lit "c")
  = [dquote] ++ lit "a,b" ++ [dquote; dquote] ++ lit "c" ++ [dquote]
  /\ format_csv_field (lit "+7 999") = lit "+7 999".
Proof.
  split.
  - apply (proj1 (proj2 (format_csv_field_spec (lit "a,b" ++ [dquote] ++ lit "c")))).
    left. vm_compute. tauto.
  - apply (proj2 (proj2 (format_csv_field_spec (lit "+7 999")))).
    unfold needs_quotes. not_in.
Defined.

(** ** Encoding a field and tokenizing it back *)

(** Without double quote and comma, a line is one run of plain
    characters. *)
Lemma scan_loop_plain (s : str) (f : list str) (b : str) (q : bool) :
  ~ In dquote s -> ~ In comma s ->
  scan_loop (Scanner s f b q) = Scanner [] f (b ++ s) q.
Proof.
  revert b. induction s as [|c r IH]; intros b Hd Hc.
  - now rewrite app_nil_r.
  - rewrite scan_loop_char.
    + rewrite IH by (simpl in *; tauto). now rewrite <- app_assoc.
    + intros ->. apply Hd. now left.
    + left. intros ->. apply Hc. now left.
Qed.

(** Inside the quotes, the doubled quotes of the encoding are read back as
    single ones and the closing quote resets the flag. *)
Lemma scan_loop_quoted_body (field : str) (f : list str) (b : str) :
  scan_loop (Scanner (flat_map double_dquote field ++ [dquote]) f b true)
  = Scanner [] f (b ++ field) false.
Proof.
  revert b. induction field as [|c r IH]; intros b.
  - simpl. rewrite scan_loop_toggle by reflexivity. now rewrite app_nil_r.
  - simpl. unfold double_dquote at 1. ascii_cases c dquote.
    + subst c. simpl. rewrite scan_loop_escaped, IH. now rewrite <- app_assoc.
    + simpl. rewrite scan_loop_char by auto. rewrite IH. now rewrite <- app_assoc.
Qed.

(** A string is a run of double quotes and a rest that does not start
    with one. *)
Lemma leading_dquotes (s : str) :
  exists k rest, s = repeat dquote k ++ rest /\ peek_is dquote rest = false.
Proof.
  induction s as [|c r (k & rest & -> & Pk)].
  - now exists 0, [].
  - ascii_cases c dquote.
    + subst c. now exists (S k), rest.
    + exists 0, (c :: repeat dquote k ++ rest). split; [reflexivity |].
      simpl. now apply ascii_eqb_false.
Qed.

Lemma repeat_snoc (c : ascii) (k : nat) : c :: repeat c k = repeat c k ++ [c].
Proof. induction k as [|k IH]; [reflexivity |]. simpl. now rewrite <- IH. Qed.

(** The quoted form of [k] double quotes and a rest: the code reads the
    opening quote and the first doubled quote as an escaped quote, and so
    on two by two, and takes the last quote of the run for the opening
    one. *)
Lemma scan_loop_quoted_rest (k : nat) (c : ascii) (r : str) (f : list str) (b : str) :
  c <> dquote ->
  scan_loop (Scanner (quoted (repeat dquote k ++ c :: r)) f b false)
  = Scanner [] f (b ++ repeat dquote k ++ c :: r) false.
Proof.
  intros Hc. unfold quoted. revert b. induction k as [|k IH]; intros b.
  - simpl app. rewrite scan_loop_toggle.
    + apply (scan_loop_quoted_body (c :: r)).
    + simpl. unfold double_dquote at 1.
      apply ascii_eqb_false in Hc. rewrite Hc. simpl. exact Hc.
  - simpl. rewrite scan_loop_escaped.
    simpl in IH. rewrite IH. now rewrite <- app_assoc.
Qed.

(** The quoted form of nothing but double quotes is all read two by
    two. *)
Lemma scan_loop_quoted_dquotes (k : nat) (f : list str) (b : str) (q : bool) :
  scan_loop (Scanner (quoted (repeat dquote k)) f b q)
  = Scanner [] f (b ++ repeat dquote (S k)) q.
Proof.
  unfold quoted. revert b. induction k as [|k IH]; intros b.
  - simpl. now rewrite scan_loop_escaped.
  - simpl. rewrite scan_loop_escaped.
    simpl in IH. rewrite IH. now rewrite <- app_assoc.
Qed.

(** The code reads the encoding of a field back as that field, unless
    the field is made of double quotes only. *)
Lemma parse_format_unless_dquotes (f : str) :
  (forall k, f <> repeat dquote (S k)) ->
  parse_csv_line (format_csv_field f) = [f].
Proof.
  intros H. unfold parse_csv_line, scan_line, scanner_init.
  destruct (needs_quotes_dec f) as [N|N].
  - rewrite format_csv_field_quoted by assumption.
    destruct (leading_dquotes f) as (k & rest & -> & Pk).
    destruct rest as [|c r].
    + rewrite app_nil_r in *. destruct k as [|k]; [| now destruct (H k)].
      destruct N as [N|[N|N]]; destruct N.
    + rewrite scan_loop_quoted_rest; [reflexivity |].
      simpl in Pk. now apply ascii_eqb_false.
  - rewrite format_csv_field_plain by assumption.
    unfold needs_quotes in N. rewrite scan_loop_plain by tauto. reflexivity.
Qed.

(** A field of double quotes only comes back with one more. *)
Lemma parse_format_dquotes (k : nat) :
  parse_csv_line (format_csv_field (repeat dquote (S k))) = [repeat dquote (S (S k))].
Proof.
  rewrite format_csv_field_quoted by (right; left; now left).
  unfold parse_csv_line, scan_line, scanner_init.
  now rewrite scan_loop_quoted_dquotes.
Qed.

(** The same round trip through the tokenizer as the specification words
    it: there it holds for every field. *)
Lemma scan_loop_spec_open r f b :
  scan_loop_spec (Scanner (dquote :: r) f b false) = scan_loop_spec (Scanner r f b true).
Proof. now rewrite scan_loop_spec_unfold. Qed.

Lemma scan_loop_spec_escaped r f b :
  scan_loop_spec (Scanner (dquote :: dquote :: r) f b true)
  = scan_loop_spec (Scanner r f (b ++ [dquote]) true).
Proof. now rewrite scan_loop_spec_unfold. Qed.

Lemma scan_loop_spec_close r f b :
  peek_is dquote r = false ->
  scan_loop_spec (Scanner (dquote :: r) f b true) = scan_loop_spec (Scanner r f b false).
Proof.
  intros P. rewrite scan_loop_spec_unfold. unfold scan_step_spec. simpl. now rewrite P.
Qed.

Lemma scan_loop_spec_char c r f b q :
  c <> dquote -> c <> comma \/ q = true ->
  scan_loop_spec (Scanner (c :: r) f b q) = scan_loop_spec (Scanner r f (b ++ [c]) q).
Proof.
  intros Hd Hc. rewrite scan_loop_spec_unfold. unfold scan_step_spec. simpl.
  apply ascii_eqb_false in Hd. rewrite Hd.
  destruct Hc as [Hc| ->].
  - apply ascii_eqb_false in Hc. now rewrite Hc.
  - now rewrite andb_false_r.
Qed.

Lemma scan_loop_spec_plain (s : str) (f : list str) (b : str) (q : bool) :
  ~ In dquote s -> ~ In comma s ->
  scan_loop_spec (Scanner s f b q) = Scanner [] f (b ++ s) q.
Proof.
  revert b. induction s as [|c r IH]; intros b Hd Hc.
  - now rewrite app_nil_r.
  - rewrite scan_loop_spec_char.
    + rewrite IH by (simpl in *; tauto). now rewrite <- app_assoc.
    + intros ->. apply Hd. now left.
    + left. intros ->. apply Hc. now left.
Qed.

Lemma scan_loop_spec_quoted_body (field : str) (f : list str) (b : str) :
  scan_loop_spec (Scanner (flat_map double_dquote field ++ [dquote]) f b true)
  = Scanner [] f (b ++ field) false.
Proof.
  revert b. induction field as [|c r IH]; intros b.
  - simpl. rewrite scan_loop_spec_close by reflexivity. now rewrite app_nil_r.
  - simpl. unfold double_dquote at 1. ascii_cases c dquote.
    + subst c. simpl. rewrite scan_loop_spec_escaped, IH. now rewrite <- app_assoc.
    + simpl. rewrite scan_loop_spec_char by auto. rewrite IH. now rewrite <- app_assoc.
Qed.

Lemma parse_spec_format (f : str) :
  parse_csv_line_spec (format_csv_field f) = [f].
Proof.
  unfold parse_csv_line_spec, scanner_init.
  destruct (needs_quotes_dec f) as [N|N].
  - rewrite format_csv_field_quoted by assumption. unfold quoted. simpl app.
    now rewrite scan_loop_spec_open, scan_loop_spec_quoted_body.
  - rewrite format_csv_field_plain by assumption.
    unfold needs_quotes in N. rewrite scan_loop_spec_plain by tauto. reflexivity.
Qed.

(** C4. The field made of one double quote is encoded as four double
    quotes, which the code reads two by two, as two escaped quotes: the
    field comes back as two double quotes, not as itself. *)
Theorem parse_format_lone_dquote :
  format_csv_field [dquote] = [dquote; dquote; dquote; dquote]
  /\ parse_csv_line (format_csv_field [dquote]) = [[dquote; dquote]]
  /\ parse_csv_line (format_csv_field [dquote]) <> [[dquote]].
Proof. repeat split. discriminate. Qed.

(** ** The row mapper *)

(** With seven fields to read, every vector access is in range. *)
Lemma output_fields_defined (input_fields : list str) (contact_group_label : str) :
  7 <= length input_fields ->
  exists row,
    output_fields input_fields contact_group_label = Some row /\ length row = 23.
Proof.
  intros H.
  destruct input_fields as [|f0 [|f1 [|f2 [|f3 [|f4 [|f5 [|f6 rest]]]]]]];
    simpl in H; try lia.
  unfold output_fields. simpl.
  destruct (splitGroupLastName f3) as [[|g group] lastName];
    eexists; split; reflexivity.
Qed.

(** C1. From a row of at least seven fields and a label the mapper makes
    a row of 23 fields: field 2 at position 0, group and last name of
    field 3 at position 2, the label at position 16, field 5 (the created
    e-mail) at position 18, field 4 (the login e-mail) at position 20,
    field 6 at position 22, and the empty string everywhere else. *)
Theorem output_fields_spec (input_fields : list str) (contact_group_label : str) :
  7 <= length input_fields ->
  exists row,
    output_fields input_fields contact_group_label = Some row
    /\ length row = 23
    /\ row !! 0 = input_fields !! 2
    /\ row !! 2 = group_and_last_name <$> input_fields !! 3
    /\ row !! 16 = Some contact_group_label
    /\ row !! 18 = input_fields !! 5
    /\ row !! 20 = input_fields !! 4
    /\ row !! 22 = input_fields !! 6
    /\ (forall i, i < 23 -> ~ In i [0; 2; 16; 18; 20; 22] -> row !! i = Some []).
Proof.
  intros H.
  destruct input_fields as [|f0 [|f1 [|f2 [|f3 [|f4 [|f5 [|f6 rest]]]]]]];
    simpl in H; try lia.
  unfold output_fields, group_and_last_name. simpl.
  destruct (splitGroupLastName f3) as [group lastName].
  destruct group as [|g group]; eexists; (split; [reflexivity |]);
    (repeat split);
    intros i Hi Hn; simpl in Hn;
    do 23 (destruct i as [|i]; [try reflexivity; exfalso; tauto |]); lia.
Qed.

Lemma output_fields_spec_witness :
  exists row,
    output_fields
      (map lit [EmptyString; "Role"; "Ivan"; "ГР-1 Petrov"; "login@x.com";
                "new@x.com"; "+79990000000"]%string)
      (lit "2024") = Some row
    /\ length row = 23
    /\ row !! 0 = Some (lit "Ivan")
    /\ row !! 2 = Some (lit "ГР-1 Petrov")
    /\ row !! 16 = Some (lit "2024")
    /\ row !! 18 = Some (lit "new@x.com")
    /\ row !! 20 = Some (lit "login@x.com")
    /\ row !! 22 = Some (lit "+79990000000")
    /\ (forall i, i < 23 -> ~ In i [0; 2; 16; 18; 20; 22] -> row !! i = Some []).
Proof.
  apply (output_fields_spec
           (map lit [EmptyString; "Role"; "Ivan"; "ГР-1 Petrov"; "login@x.com";
                     "new@x.com"; "+79990000000"]%string)
           (lit "2024")).
  simpl. lia.
Defined.

(** ** Writing a row *)

(** The [for] loop from index [length pre] on, with [suf] still to
    write. *)
Lemma write_row_loop (suf pre : list str) (acc : str) :
  fold_left (write_field (pre ++ suf)) (seq (length pre) (length suf)) acc
  = acc ++ join_commas (map format_csv_field suf).
Proof.
  revert pre acc. induction suf as [|x suf IH]; intros pre acc.
  - simpl. now rewrite app_nil_r.
  - cbn [length seq fold_left].
    specialize (IH (pre ++ [x])). rewrite <- app_assoc in IH. simpl app in IH.
    replace (length (pre ++ [x])) with (S (length pre)) in IH
      by (rewrite length_app; simpl; lia).
    rewrite IH. clear IH. unfold write_field.
    rewrite list_lookup_middle by reflexivity. simpl default.
    rewrite length_app. simpl length.
    destruct suf as [|y suf].
    + simpl length. destruct (Nat.ltb_spec (length pre) (length pre + 1 - 1)); [lia |].
      simpl. now rewrite app_nil_r.
    + simpl length.
      destruct (Nat.ltb_spec (length pre) (length pre + S (S (length suf)) - 1));
        [| lia].
      cbn [map join_commas]. now rewrite <- !app_assoc.
Qed.

Lemma write_row_join (row : list str) :
  write_row row = join_commas (map format_csv_field row) ++ [newline].
Proof.
  unfold write_row. f_equal. apply (write_row_loop row [] []).
Qed.

Lemma int_incr_Some (x : Z) : (x < INT_MAX)%Z -> int_incr x = Some (x + 1)%Z.
Proof.
  intros H. unfold int_incr. apply Z.ltb_lt in H. now rewrite H.
Qed.

(** What [process_line] does with a line of at least seven fields once
    the header is behind. *)
Lemma process_line_accepted (contact_group_label line : str) (st : run_state) :
  line <> [] ->
  is_first_line st = false ->
  7 <= length (parse_csv_line line) ->
  (line_number st < INT_MAX)%Z ->
  (processed_count st < INT_MAX)%Z ->
  exists row,
    output_fields (parse_csv_line line) contact_group_label = Some row
    /\ process_line contact_group_label line st
       = Some {| is_first_line := false;
                 line_number := line_number st + 1;
                 processed_count := processed_count st + 1;
                 output_file := output_file st ++ write_row row;
                 cerr := cerr st |}.
Proof.
  intros Hl Hf H7 Hn Hp.
  destruct (output_fields_defined (parse_csv_line line) contact_group_label H7)
    as (row & Hrow & _).
  exists row. split; [exact Hrow |].
  unfold process_line. rewrite (int_incr_Some _ Hn). simpl.
  destruct line as [|c l]; [congruence |].
  rewrite Hf.
  replace (length (parse_csv_line (c :: l)) <? INPUT_NUM_COLUMNS_EXPECTED) with false
    by (symmetry; apply Nat.ltb_ge; exact H7).
  rewrite Hrow. simpl. rewrite (int_incr_Some _ Hp). reflexivity.
Qed.

(** ** Where the characters of a row come from *)

Section Characters.

(** A property of characters, such as not being a newline. *)
Variable P : ascii -> Prop.

Lemma scan_loop_Forall (s : str) :
  Forall P s ->
  forall f b q,
    Forall (Forall P) f -> Forall P b ->
    Forall (Forall P) (fields (scan_loop (Scanner s f b q)))
    /\ Forall P (field_buffer (scan_loop (Scanner s f b q))).
Proof.
  induction s as [|r IH|r Pr IH|c r Hc IH] using scan_ind; intros Hs f b q Hf Hb.
  - now split.
  - rewrite scan_loop_escaped. inversion Hs as [|? ? Hd Hs']; subst.
    inversion Hs'; subst. apply IH; auto using Forall_app_2.
  - rewrite scan_loop_toggle by exact Pr. inversion Hs; subst. now apply IH.
  - inversion Hs as [|? ? Hp Hs']; subst. destruct q.
    + rewrite scan_loop_char by auto. apply IH; auto using Forall_app_2.
    + ascii_cases c comma.
      * subst c. rewrite scan_loop_separator. apply IH; auto using Forall_app_2.
      * rewrite scan_loop_char by auto. apply IH; auto using Forall_app_2.
Qed.

(** The fields of a line are made of characters of the line. *)
Lemma parse_csv_line_Forall (line : str) :
  Forall P line -> Forall (Forall P) (parse_csv_line line).
Proof.
  intros H. unfold parse_csv_line, scan_line, scanner_init.
  destruct (scan_loop_Forall line H [] [] false) as [Hf Hb];
    [constructor | constructor |].
  apply Forall_app_2; auto.
Qed.

Lemma splitGroupLastName_Forall (combined : str) :
  Forall P combined ->
  Forall P (fst (splitGroupLastName combined))
  /\ Forall P (snd (splitGroupLastName combined)).
Proof.
  intros H. unfold splitGroupLastName.
  destruct combined as [|c0 s0] eqn:E; [now split |]. rewrite <- E in *. clear E.
  destruct (StdString.find space combined) as [first_space|]; [| now split].
  unfold StdString.substr, StdString.erase, StdString.substr_from. simpl. split.
  - destruct (StdString.find_last_not_of _ _); [| constructor].
    now apply Forall_take, Forall_take, Forall_drop.
  - destruct (StdString.find_first_not_of _ _ _); [| constructor].
    now apply Forall_drop.
Qed.

Lemma output_fields_Forall (input_fields : list str) (contact_group_label : str)
      (row : list str) :
  P space ->
  Forall (Forall P) input_fields -> Forall P contact_group_label ->
  output_fields input_fields contact_group_label = Some row ->
  Forall (Forall P) row.
Proof.
  intros Hsp Hin Hl. unfold output_fields.
  destruct input_fields as [|f0 [|f1 [|f2 [|f3 [|f4 [|f5 [|f6 rest]]]]]]];
    simpl; try discriminate;
    try (destruct (splitGroupLastName f3) as [[|g group] lastName]; discriminate).
  repeat match goal with
         | H : Forall _ (_ :: _) |- _ => inversion H; clear H; subst
         end.
  pose proof (splitGroupLastName_Forall f3) as S3.
  destruct (splitGroupLastName f3) as [group lastName]. simpl in S3.
  destruct S3 as [Hg Hn]; [assumption |].
  destruct group as [|g group]; intros [= <-];
    repeat (apply Forall_cons; split); auto using Forall_nil, Forall_app_2.
  - inversion Hg; subst. assumption.
  - inversion Hg; subst. apply Forall_app_2; [assumption |].
    now constructor.
Qed.

Lemma format_csv_field_Forall (field : str) :
  P dquote -> Forall P field -> Forall P (format_csv_field field).
Proof.
  intros Hd H. destruct (needs_quotes_dec field) as [N|N].
  - rewrite format_csv_field_quoted by assumption. unfold quoted.
    apply Forall_app_2; [auto |]. apply Forall_app_2; [| auto].
    clear N. induction H as [|c r Hc Hr IH]; simpl; [constructor |].
    apply Forall_app_2; [| exact IH].
    unfold double_dquote. destruct (Ascii.eqb c dquote); auto.
  - now rewrite format_csv_field_plain.
Qed.

Lemma join_commas_Forall (l : list str) :
  P comma -> Forall (Forall P) l -> Forall P (join_commas l).
Proof.
  intros Hc H. induction H as [|x r Hx Hr IH]; [constructor |].
  destruct r as [|y r]; [exact Hx |].
  change (join_commas (x :: y :: r)) with (x ++ [comma] ++ join_commas (y :: r)).
  apply Forall_app_2; [exact Hx |]. apply Forall_app_2; auto.
Qed.

(** The text of a row is made of characters of the line and of the
    label, and of the space, the double quote and the comma the code
    adds. *)
Lemma data_line_Forall (contact_group_label line : str) (row : list str) :
  P space -> P dquote -> P comma ->
  Forall P contact_group_label -> Forall P line ->
  output_fields (parse_csv_line line) contact_group_label = Some row ->
  Forall P (join_commas (map format_csv_field row)).
Proof.
  intros Hs Hd Hc Hl Hline Hrow.
  apply join_commas_Forall; [assumption |].
  apply Forall_map, Forall_forall. intros f Hf.
  apply format_csv_field_Forall; [assumption |].
  assert (R : Forall (Forall P) row).
  { eapply output_fields_Forall; [| | exact Hl | exact Hrow]; [assumption |].
    now apply parse_csv_line_Forall. }
  rewrite Forall_forall in R. now apply R.
Qed.

End Characters.

(** A line that [std::getline] delivers has no newline in it. *)
Lemma break_line_no_newline (s : str) : no_newline (fst (break_line s)).
Proof.
  unfold no_newline. induction s as [|c r IH]; simpl; [constructor |].
  ascii_cases c newline; [constructor |].
  destruct (break_line r) as [l r']. simpl in *. now constructor.
Qed.

Lemma getlines_no_newline (s : str) : Forall no_newline (getlines s).
Proof.
  unfold no_newline. induction s as [|c r IH]; simpl; [constructor |].
  ascii_cases c newline; [constructor; [constructor | exact IH] |].
  destruct (getlines r) as [|l ls].
  - repeat constructor. assumption.
  - inversion IH; subst. constructor; [| assumption]. now constructor.
Qed.

(** [getlines] is what repeated calls of [getline] give. *)
Lemma getlines_getline (s : str) :
  getlines s
  = match getline s with
    | Some (line, rest) => line :: getlines rest
    | None => []
    end.
Proof.
  induction s as [|c r IH]; [reflexivity |].
  simpl. ascii_cases c newline; [reflexivity |].
  rewrite IH. destruct r as [|c' r']; [reflexivity |].
  simpl. destruct (Ascii.eqb c' newline); [reflexivity |].
  now destruct (break_line r').
Qed.

(** The row written for a line has no newline before the one that ends
    it. *)
Lemma data_line_no_newline (contact_group_label line : str) (row : list str) :
  no_newline contact_group_label -> no_newline line ->
  output_fields (parse_csv_line line) contact_group_label = Some row ->
  no_newline (join_commas (map format_csv_field row)).
Proof. unfold no_newline. now apply data_line_Forall. Qed.

(** ** The row loop *)

Lemma int_incr_inv (x y : Z) :
  int_incr x = Some y -> (x < INT_MAX)%Z /\ y = (x + 1)%Z.
Proof.
  unfold int_incr. destruct (Z.ltb_spec x INT_MAX); [| discriminate].
  intros [= <-]. now split.
Qed.

(** The four ways through the body of the loop. *)
Lemma process_line_cases (contact_group_label line : str) (st st' : run_state) :
  process_line contact_group_label line st = Some st' ->
  (line_number st < INT_MAX)%Z
  /\ ((line = []
       /\ st' = {| is_first_line := is_first_line st;
                   line_number := line_number st + 1;
                   processed_count := processed_count st;
                   output_file := output_file st;
                   cerr := cerr st ++ [EmptyLineWarning (line_number st + 1)] |})
      \/ (line <> [] /\ is_first_line st = true
          /\ st' = {| is_first_line := false;
                      line_number := line_number st + 1;
                      processed_count := processed_count st;
                      output_file := output_file st;
                      cerr := cerr st |})
      \/ (line <> [] /\ is_first_line st = false
          /\ length (parse_csv_line line) < 7
          /\ st' = {| is_first_line := false;
                      line_number := line_number st + 1;
                      processed_count := processed_count st;
                      output_file := output_file st;
                      cerr := cerr st
                              ++ [TooFewColumnsWarning (line_number st + 1)
                                    (length (parse_csv_line line)) line] |})
      \/ (line <> [] /\ is_first_line st = false
          /\ 7 <= length (parse_csv_line line)
          /\ (processed_count st < INT_MAX)%Z
          /\ exists row,
               output_fields (parse_csv_line line) contact_group_label = Some row
               /\ st' = {| is_first_line := false;
                           line_number := line_number st + 1;
                           processed_count := processed_count st + 1;
                           output_file := output_file st ++ write_row row;
                           cerr := cerr st |})).
Proof.
  unfold process_line.
  destruct (int_incr (line_number st)) as [n|] eqn:En; [| discriminate].
  apply int_incr_inv in En as [Hn ->]. simpl.
  destruct line as [|c l].
  - intros [= <-]. split; [assumption |]. now left.
  - destruct (is_first_line st) eqn:Ef.
    + intros [= <-]. split; [assumption |]. right; left. now repeat split.
    + destruct (Nat.ltb_spec (length (parse_csv_line (c :: l)))
                  INPUT_NUM_COLUMNS_EXPECTED) as [Hlt|Hge].
      * intros [= <-]. split; [assumption |]. right; right; left.
        now repeat split.
      * destruct (output_fields _ _) as [row|] eqn:Er; [| discriminate]. simpl.
        destruct (int_incr (processed_count st)) as [p|] eqn:Ep; [| discriminate].
        apply int_incr_inv in Ep as [Hp ->]. simpl.
        intros [= <-]. split; [assumption |]. right; right; right.
        repeat split; try assumption; try discriminate.
        now exists row.
Qed.

(** C2. For a line of at least seven fields, the text appended to the
    output file is 23 encoded fields with one comma between each two, and
    then one newline character. No carriage return is written: the text
    has none unless the line or the label brings one. *)
Theorem data_line_shape (contact_group_label line : str) (st : run_state) :
  line <> [] ->
  is_first_line st = false ->
  7 <= length (parse_csv_line line) ->
  (line_number st < INT_MAX)%Z ->
  (processed_count st < INT_MAX)%Z ->
  exists row st',
    output_fields (parse_csv_line line) contact_group_label = Some row
    /\ process_line contact_group_label line st = Some st'
    /\ length (map format_csv_field row) = 23
    /\ output_file st'
       = output_file st ++ join_commas (map format_csv_field row) ++ [newline]
    /\ (no_carriage_return line -> no_carriage_return contact_group_label ->
        no_carriage_return (join_commas (map format_csv_field row) ++ [newline])).
Proof.
  intros Hl Hf H7 Hn Hp.
  destruct (process_line_accepted contact_group_label line st Hl Hf H7 Hn Hp)
    as (row & Hrow & Hst).
  destruct (output_fields_defined _ contact_group_label H7) as (row' & Hrow' & Hlen).
  rewrite Hrow in Hrow'. injection Hrow' as <-.
  eexists row, _. split; [exact Hrow |]. split; [exact Hst |].
  split; [now rewrite length_map |]. split.
  - simpl. now rewrite write_row_join.
  - unfold no_carriage_return. intros Hline Hlab.
    apply Forall_app_2; [| repeat constructor; discriminate].
    apply (data_line_Forall _ contact_group_label line); try assumption;
      discriminate.
Qed.

Lemma data_line_shape_witness :
  exists row st',
    output_fields (parse_csv_line sample_row) (lit "2024") = Some row
    /\ process_line (lit "2024") sample_row (header_done 1) = Some st'
    /\ length (map format_csv_field row) = 23
    /\ output_file st'
       = output_file (header_done 1)
         ++ join_commas (map format_csv_field row) ++ [newline]
    /\ (no_carriage_return sample_row -> no_carriage_return (lit "2024") ->
        no_carriage_return (join_commas (map format_csv_field row) ++ [newline])).
Proof.
  apply (data_line_shape (lit "2024") sample_row (header_done 1)).
  - discriminate.
  - reflexivity.
  - vm_compute. lia.
  - reflexivity.
  - reflexivity.
Defined.

(** C7. A line of fewer than seven fields, once the header is behind, is
    answered with the warning that names its number, the number of fields
    found and the line itself; nothing is written to the output file, the
    count of processed rows stays, and the loop goes on with the next
    line. *)
Theorem short_row_skipped (contact_group_label line : str) (st : run_state) :
  line <> [] ->
  is_first_line st = false ->
  length (parse_csv_line line) < 7 ->
  (line_number st < INT_MAX)%Z ->
  exists st',
    process_line contact_group_label line st = Some st'
    /\ cerr st' = cerr st ++ [TooFewColumnsWarning (line_number st + 1)
                                (length (parse_csv_line line)) line]
    /\ output_file st' = output_file st
    /\ processed_count st' = processed_count st
    /\ line_number st' = (line_number st + 1)%Z
    /\ is_first_line st' = false
    /\ forall lines,
         row_loop contact_group_label (line :: lines) st
         = row_loop contact_group_label lines st'.
Proof.
  intros Hl Hf H7 Hn.
  assert (E : process_line contact_group_label line st
              = Some {| is_first_line := false;
                        line_number := line_number st + 1;
                        processed_count := processed_count st;
                        output_file := output_file st;
                        cerr := cerr st
                                ++ [TooFewColumnsWarning (line_number st + 1)
                                      (length (parse_csv_line line)) line] |}).
  { unfold process_line. rewrite (int_incr_Some _ Hn). simpl.
    destruct line as [|c l]; [congruence |]. rewrite Hf.
    destruct (Nat.ltb_spec (length (parse_csv_line (c :: l)))
                INPUT_NUM_COLUMNS_EXPECTED) as [_|Hge]; [reflexivity |].
    unfold INPUT_NUM_COLUMNS_EXPECTED in Hge. lia. }
  eexists. split; [exact E |]. repeat split.
  intros lines. simpl. now rewrite E.
Qed.

Lemma short_row_skipped_witness :
  exists st',
    process_line (lit "2024") (lit "a,b,c,d,e") (header_done 1) = Some st'
    /\ cerr st' = [TooFewColumnsWarning 2 5 (lit "a,b,c,d,e")]
    /\ output_file st' = BOM ++ output_header ++ [newline]
    /\ processed_count st' = 0%Z
    /\ line_number st' = 2%Z
    /\ is_first_line st' = false
    /\ forall lines,
         row_loop (lit "2024") (lit "a,b,c,d,e" :: lines) (header_done 1)
         = row_loop (lit "2024") lines st'.
Proof.
  apply (short_row_skipped (lit "2024") (lit "a,b,c,d,e") (header_done 1)).
  - discriminate.
  - reflexivity.
  - vm_compute. lia.
  - reflexivity.
Defined.

(** Empty lines are skipped with a warning each, whatever the flag. *)
Lemma row_loop_empty_lines (contact_group_label : str) (k : nat) (lines : list str)
      (st : run_state) :
  (line_number st + Z.of_nat k <= INT_MAX)%Z ->
  row_loop contact_group_label (repeat [] k ++ lines) st
  = row_loop contact_group_label lines
      {| is_first_line := is_first_line st;
         line_number := line_number st + Z.of_nat k;
         processed_count := processed_count st;
         output_file := output_file st;
         cerr := cerr st
                 ++ map (fun i => EmptyLineWarning (line_number st + Z.of_nat i))
                        (seq 1 k) |}.
Proof.
  revert st. induction k as [|k IH]; intros st Hk.
  - simpl. rewrite Z.add_0_r, app_nil_r. now destruct st.
  - cbn [repeat app row_loop]. unfold process_line at 1.
    rewrite int_incr_Some by lia. simpl mbind.
    rewrite IH by (simpl; lia). simpl.
    f_equal. f_equal; [lia |].
    rewrite <- app_assoc. f_equal.
    change (seq 1 (S k)) with (1 :: seq 2 k).
    rewrite <- (seq_shift k 1), map_map. simpl. f_equal.
    apply map_ext. intros i. f_equal. lia.
Qed.

(** The first line that is not empty is dropped. *)
Lemma process_line_header (contact_group_label line : str) (st : run_state) :
  line <> [] ->
  is_first_line st = true ->
  (line_number st < INT_MAX)%Z ->
  process_line contact_group_label line st
  = Some {| is_first_line := false;
            line_number := line_number st + 1;
            processed_count := processed_count st;
            output_file := output_file st;
            cerr := cerr st |}.
Proof.
  intros Hl Hf Hn. unfold process_line. rewrite (int_incr_Some _ Hn).
  destruct line as [|c l]; [congruence |]. simpl. now rewrite Hf.
Qed.

(** Once the header is behind, it stays behind. *)
Lemma process_line_after_header (contact_group_label line : str) (st st' : run_state) :
  is_first_line st = false ->
  process_line contact_group_label line st = Some st' ->
  is_first_line st' = false.
Proof.
  intros Hf H. apply process_line_cases in H as [_ H].
  destruct H as [[_ ->]|[(_ & _ & ->)|[(_ & _ & _ & ->)|(_ & _ & _ & _ & row & _ & ->)]]];
    simpl; auto.
Qed.

(** C8, as it is stated, fails on the file whose first line is empty and
    whose second line is a data row of seven fields: the empty line is
    skipped with a warning, and it is the second line that is dropped as the
    header, so that nothing is written after the header line and nothing is
    counted. *)
Lemma second_line_dropped_as_header :
  length (parse_csv_line sample_row) = 7
  /\ row_loop (lit "2024") [[]; sample_row] run_init
     = Some {| is_first_line := false;
               line_number := 2;
               processed_count := 0;
               output_file := BOM ++ output_header ++ [newline];
               cerr := [EmptyLineWarning 1] |}
  /\ (processed_count <$> row_loop_first_line_header (lit "2024") [[]; sample_row])
     = Some 1%Z
  /\ ~ first_line_is_header (lit "2024") [[]; sample_row].
Proof.
  split; [reflexivity |]. split; [reflexivity |]. split; [reflexivity |].
  unfold first_line_is_header. vm_compute. discriminate.
Qed.

(** ** Rows counted and rows written *)

Lemma process_line_succeeds (contact_group_label line : str) (st : run_state) :
  (line_number st < INT_MAX)%Z ->
  (processed_count st <= line_number st)%Z ->
  exists st',
    process_line contact_group_label line st = Some st'
    /\ line_number st' = (line_number st + 1)%Z
    /\ (processed_count st' <= line_number st')%Z.
Proof.
  intros Hn Hp. unfold process_line. rewrite (int_incr_Some _ Hn). simpl.
  destruct line as [|c l]; [eexists; split; [reflexivity | simpl; lia] |].
  destruct (is_first_line st); [eexists; split; [reflexivity | simpl; lia] |].
  destruct (Nat.ltb_spec (length (parse_csv_line (c :: l)))
              INPUT_NUM_COLUMNS_EXPECTED) as [_|Hge];
    [eexists; split; [reflexivity | simpl; lia] |].
  destruct (output_fields_defined _ contact_group_label Hge) as (row & -> & _).
  simpl. rewrite int_incr_Some by lia. simpl.
  eexists; split; [reflexivity | simpl; lia].
Qed.

(** The loop comes to its end when the lines can be counted in an
    [int]. *)
Lemma row_loop_succeeds (contact_group_label : str) (lines : list str) (st : run_state) :
  (line_number st + Z.of_nat (length lines) <= INT_MAX)%Z ->
  (processed_count st <= line_number st)%Z ->
  exists st', row_loop contact_group_label lines st = Some st'.
Proof.
  revert st. induction lines as [|line lines IH]; intros st Hn Hp.
  - now exists st.
  - destruct (process_line_succeeds contact_group_label line st)
      as (st1 & E & Hn1 & Hp1); [simpl length in Hn; lia | assumption |].
    simpl. rewrite E. simpl. apply IH; [simpl length in Hn; lia | assumption].
Qed.

(** One turn of the loop either leaves the output file and the count as
    they are, or appends one line and adds one. *)
Lemma process_line_data_lines (contact_group_label line : str)
      (st st' : run_state) (rows : list str) :
  no_newline contact_group_label -> no_newline line ->
  data_lines_written st rows ->
  process_line contact_group_label line st = Some st' ->
  exists rows', data_lines_written st' rows'.
Proof.
  intros Hlab Hline (Hout & Hrows & Hcount) H.
  apply process_line_cases in H as [_ H].
  destruct H as [[_ ->]|[(_ & _ & ->)|[(_ & _ & _ & ->)|(_ & _ & _ & _ & row & Hr & ->)]]];
    try (exists rows; now repeat split).
  exists (rows ++ [join_commas (map format_csv_field row)]).
  unfold data_lines_written. cbn [output_file processed_count]. repeat split.
  - rewrite Hout, write_row_join, map_app, concat_app.
    cbn [map concat]. rewrite app_nil_r. now rewrite <- !app_assoc.
  - apply Forall_app_2; [assumption |]. constructor; [| constructor].
    apply (data_line_no_newline contact_group_label line); assumption.
  - rewrite Hcount, length_app. cbn [length]. lia.
Qed.

Lemma row_loop_data_lines (contact_group_label : str) (lines : list str)
      (st st' : run_state) (rows : list str) :
  no_newline contact_group_label -> Forall no_newline lines ->
  data_lines_written st rows ->
  row_loop contact_group_label lines st = Some st' ->
  exists rows', data_lines_written st' rows'.
Proof.
  intros Hlab Hlines. revert st rows.
  induction Hlines as [|line lines Hline Hlines IH]; intros st rows Hst H.
  - injection H as <-. now exists rows.
  - simpl in H.
    destruct (process_line contact_group_label line st) as [st1|] eqn:E;
      [| discriminate].
    simpl in H.
    destruct (process_line_data_lines _ _ _ _ _ Hlab Hline Hst E) as [rows1 H1].
    now apply (IH st1 rows1).
Qed.

(** * Further properties *)

(** ** The tokenizer on whole lines *)

(** The fields ended before a scan starts stay in front, untouched. *)
Lemma scan_loop_frame (s : str) :
  forall f f' b q,
    scan_loop (Scanner s (f ++ f') b q)
    = let st := scan_loop (Scanner s f' b q) in
      Scanner (ss st) (f ++ fields st) (field_buffer st) (in_quotes st).
Proof.
  induction s as [|r IH|r Pr IH|c r Hc IH] using scan_ind; intros f f' b q.
  - reflexivity.
  - rewrite !scan_loop_escaped. apply IH.
  - rewrite !(scan_loop_toggle r) by exact Pr. apply IH.
  - destruct q.
    + rewrite !(scan_loop_char c) by auto. apply IH.
    + ascii_cases c comma.
      * subst c. rewrite !scan_loop_separator, <- app_assoc. apply IH.
      * rewrite !(scan_loop_char c) by auto. apply IH.
Qed.

(** Reading [a], a comma outside quotes, and [b]. *)
Lemma scan_loop_comma (a b : str) :
  in_quotes (scan_line a) = false ->
  scan_line (a ++ comma :: b)
  = let st := scan_line b in
    Scanner [] (parse_csv_line a ++ fields st) (field_buffer st) (in_quotes st).
Proof.
  intros Hq. unfold parse_csv_line, scan_line, scanner_init in *.
  rewrite scan_loop_app by reflexivity. cbv zeta. rewrite Hq.
  rewrite scan_loop_separator.
  rewrite <- (app_nil_r (fields _ ++ [field_buffer _])).
  rewrite scan_loop_frame. cbv zeta. rewrite scan_loop_exhausts.
  now rewrite app_nil_r.
Qed.

(** X3. A comma read outside quotes cuts the line in two lines that are
    tokenized on their own: the fields of [a ++ "," ++ b] are those of [a]
    and then those of [b]. *)
Theorem parse_csv_line_comma (a b : str) :
  in_quotes (scan_line a) = false ->
  parse_csv_line (a ++ comma :: b) = parse_csv_line a ++ parse_csv_line b.
Proof.
  intros Hq. unfold parse_csv_line at 1.
  rewrite scan_loop_comma by exact Hq. cbv zeta. simpl.
  unfold parse_csv_line at 3. now rewrite <- app_assoc.
Qed.

Lemma parse_csv_line_comma_witness :
  parse_csv_line (([dquote] ++ lit "a,b" ++ [dquote]) ++ comma :: lit "c,d")
  = parse_csv_line ([dquote] ++ lit "a,b" ++ [dquote]) ++ parse_csv_line (lit "c,d").
Proof.
  apply (parse_csv_line_comma ([dquote] ++ lit "a,b" ++ [dquote]) (lit "c,d")).
  reflexivity.
Defined.

Lemma join_commas_snoc (l : list str) (x : str) :
  l <> [] -> join_commas (l ++ [x]) = join_commas l ++ comma :: x.
Proof.
  induction l as [|y l IH]; [congruence |]. intros _.
  destruct l as [|z l]; [reflexivity |].
  change (join_commas ((y :: z :: l) ++ [x]))
    with (y ++ [comma] ++ join_commas ((z :: l) ++ [x])).
  rewrite IH by discriminate.
  change (join_commas (y :: z :: l)) with (y ++ [comma] ++ join_commas (z :: l)).
  now rewrite <- !app_assoc.
Qed.

Lemma join_commas_last_app (f : list str) (b s : str) :
  join_commas (f ++ [b ++ s]) = join_commas (f ++ [b]) ++ s.
Proof.
  destruct f as [|y f]; [reflexivity |].
  rewrite !join_commas_snoc by discriminate. now rewrite <- !app_assoc.
Qed.

(** On a line without double quotes the scan only cuts at the commas. *)
Lemma scan_loop_unquoted (s : str) :
  ~ In dquote s ->
  forall f b,
    let st := scan_loop (Scanner s f b false) in
    join_commas (fields st ++ [field_buffer st]) = join_commas (f ++ [b]) ++ s
    /\ length (fields st) = length f + count_char comma s.
Proof.
  unfold count_char.
  induction s as [|c r IH]; intros Hd f b.
  - simpl. rewrite app_nil_r. split; [reflexivity | lia].
  - assert (Hc : c <> dquote) by (intros ->; apply Hd; now left).
    assert (Hr : ~ In dquote r) by (intros H; apply Hd; now right).
    ascii_cases c comma.
    + subst c. cbv zeta. rewrite scan_loop_separator.
      destruct (IH Hr (f ++ [b]) []) as [IH1 IH2]. cbv zeta in IH1, IH2.
      rewrite IH1, IH2. split.
      * rewrite join_commas_snoc by (now destruct f). simpl.
        now rewrite <- app_assoc.
      * rewrite length_app. simpl. destruct (ascii_dec comma comma); [lia | congruence].
    + cbv zeta. rewrite scan_loop_char by auto.
      destruct (IH Hr f (b ++ [c])) as [IH1 IH2]. cbv zeta in IH1, IH2.
      rewrite IH1, IH2. split.
      * rewrite join_commas_last_app. now rewrite <- app_assoc.
      * simpl. destruct (ascii_dec c comma); [congruence | lia].
Qed.

(** X1. A line without double quotes is cut at its commas and nowhere
    else: joining its fields with commas gives the line back, and there is
    one field more than there are commas. *)
Theorem parse_csv_line_unquoted (line : str) :
  ~ In dquote line ->
  join_commas (parse_csv_line line) = line
  /\ length (parse_csv_line line) = S (count_char comma line).
Proof.
  intros Hd. unfold parse_csv_line, scan_line, scanner_init.
  destruct (scan_loop_unquoted line Hd [] []) as [H1 H2]. cbv zeta in H1, H2.
  split; [exact H1 |].
  rewrite length_app, H2. simpl. lia.
Qed.

Lemma parse_csv_line_unquoted_witness :
  join_commas (parse_csv_line (lit ",a,,b c,")) = lit ",a,,b c,"
  /\ length (parse_csv_line (lit ",a,,b c,")) = S (count_char comma (lit ",a,,b c,")).
Proof. apply (parse_csv_line_unquoted (lit ",a,,b c,")). not_in. Defined.

Lemma count_char_cons (c x : ascii) (s : str) :
  count_char c (x :: s) = (if Ascii.eqb x c then 1 else 0) + count_char c s.
Proof.
  unfold count_char. simpl.
  destruct (ascii_dec x c) as [->|N].
  - now rewrite ascii_eqb_refl.
  - apply ascii_eqb_false in N. now rewrite N.
Qed.

(** A field is ended only at a comma. *)
Lemma scan_loop_fields_bound (s : str) :
  forall f b q,
    length (fields (scan_loop (Scanner s f b q))) <= length f + count_char comma s.
Proof.
  induction s as [|r IH|r Pr IH|c r Hc IH] using scan_ind; intros f b q.
  - simpl. lia.
  - rewrite scan_loop_escaped, !count_char_cons. simpl. apply IH.
  - rewrite scan_loop_toggle by exact Pr. rewrite count_char_cons. simpl. apply IH.
  - rewrite count_char_cons. destruct q.
    + rewrite scan_loop_char by auto. specialize (IH f (b ++ [c]) true). lia.
    + ascii_cases c comma.
      * subst c. rewrite scan_loop_separator.
        specialize (IH (f ++ [b]) [] false). rewrite length_app in IH.
        simpl in IH |- *. lia.
      * rewrite scan_loop_char by auto. specialize (IH f (b ++ [c]) false).
        simpl. lia.
Qed.

(** X2. A line gives at least one field and at most one more than it has
    commas, however its quotes are placed. *)
Theorem parse_csv_line_field_count (line : str) :
  1 <= length (parse_csv_line line) <= S (count_char comma line).
Proof.
  unfold parse_csv_line, scan_line, scanner_init. rewrite length_app. simpl.
  pose proof (scan_loop_fields_bound line [] [] false) as H. simpl in H. lia.
Qed.

(** Every double quote read alone flips the flag, and two read together
    leave it. *)
Lemma scan_loop_in_quotes (s : str) :
  forall f b q,
    in_quotes (scan_loop (Scanner s f b q)) = xorb q (Nat.odd (count_char dquote s)).
Proof.
  induction s as [|r IH|r Pr IH|c r Hc IH] using scan_ind; intros f b q.
  - simpl. now rewrite xorb_false_r.
  - rewrite scan_loop_escaped, IH, !count_char_cons, ascii_eqb_refl.
    now rewrite Nat.odd_succ_succ.
  - rewrite scan_loop_toggle by exact Pr.
    rewrite IH, count_char_cons, ascii_eqb_refl.
    change (1 + count_char dquote r) with (S (count_char dquote r)).
    rewrite Nat.odd_succ, <- Nat.negb_odd.
    now destruct q, (Nat.odd (count_char dquote r)).
  - rewrite count_char_cons.
    apply ascii_eqb_false in Hc as Hc'. rewrite Hc'. simpl.
    destruct q.
    + rewrite scan_loop_char by auto. apply IH.
    + ascii_cases c comma.
      * subst c. rewrite scan_loop_separator. apply IH.
      * rewrite scan_loop_char by auto. apply IH.
Qed.

(** X4. The tokenizer is left inside a quoted field exactly when the line
    has an odd number of double quotes. *)
Theorem parse_csv_line_open_quote (line : str) :
  in_quotes (scan_line line) = Nat.odd (count_char dquote line).
Proof.
  unfold scan_line, scanner_init. now rewrite scan_loop_in_quotes.
Qed.

(** The fields joined are never longer than what was read. *)
Lemma scan_loop_length (s : str) :
  forall f b q,
    let st := scan_loop (Scanner s f b q) in
    length (join_commas (fields st ++ [field_buffer st]))
    <= length (join_commas (f ++ [b])) + length s.
Proof.
  induction s as [|r IH|r Pr IH|c r Hc IH] using scan_ind; intros f b q; cbv zeta.
  - simpl. lia.
  - rewrite scan_loop_escaped.
    specialize (IH f (b ++ [dquote]) q). cbv zeta in IH.
    rewrite join_commas_last_app, length_app in IH. simpl in IH |- *. lia.
  - rewrite scan_loop_toggle by exact Pr.
    specialize (IH f b (negb q)). cbv zeta in IH. simpl. lia.
  - assert (Hchar : length (join_commas
                           (fields (scan_loop (Scanner r f (b ++ [c]) q))
                            ++ [field_buffer (scan_loop (Scanner r f (b ++ [c]) q))]))
                    <= length (join_commas (f ++ [b])) + length (c :: r)).
    { specialize (IH f (b ++ [c]) q). cbv zeta in IH.
      rewrite join_commas_last_app, length_app in IH. simpl in IH |- *. lia. }
    destruct q.
    + rewrite scan_loop_char by auto. exact Hchar.
    + ascii_cases c comma.
      * subst c. rewrite scan_loop_separator.
        specialize (IH (f ++ [b]) [] false). cbv zeta in IH.
        rewrite (join_commas_snoc (f ++ [b]) []) in IH by (now destruct f).
        rewrite (length_app (join_commas (f ++ [b]))) in IH.
        simpl in IH |- *. lia.
      * rewrite scan_loop_char by auto. exact Hchar.
Qed.

(** X5. The tokenizer invents nothing: every character of a field is a
    character of the line, and the fields joined with commas are not
    longer than the line. *)
Theorem parse_csv_line_from_line (line : str) :
  (forall f c, In f (parse_csv_line line) -> In c f -> In c line)
  /\ length (join_commas (parse_csv_line line)) <= length line.
Proof.
  split.
  - intros f c Hf Hc.
    assert (H : Forall (Forall (fun x => In x line)) (parse_csv_line line))
      by (apply parse_csv_line_Forall, Forall_forall;
          intros x Hx; now apply list_elem_of_In).
    rewrite Forall_forall in H. specialize (H f).
    rewrite Forall_forall in H. apply H; [| now apply list_elem_of_In].
    now apply list_elem_of_In.
  - unfold parse_csv_line, scan_line, scanner_init.
    pose proof (scan_loop_length line [] [] false) as H. cbv zeta in H.
    simpl in H. exact H.
Qed.

Lemma parse_csv_line_from_line_witness :
  In "b"%char ([dquote] ++ lit "a,b" ++ [dquote] ++ lit ",c").
Proof.
  apply (proj1 (parse_csv_line_from_line ([dquote] ++ lit "a,b" ++ [dquote] ++ lit ",c"))
           (lit "a,b") "b"%char).
  - vm_compute. tauto.
  - vm_compute. tauto.
Defined.

(** ** The encoder *)

(** X7. Two different fields are never encoded alike. *)
Theorem format_csv_field_injective (f g : str) :
  format_csv_field f = format_csv_field g -> f = g.
Proof.
  intros H. apply (f_equal parse_csv_line_spec) in H.
  rewrite !parse_spec_format in H. now injection H.
Qed.

Lemma format_csv_field_injective_witness :
  lit "a,b" = lit "a" ++ lit ",b".
Proof.
  apply (format_csv_field_injective (lit "a,b") (lit "a" ++ lit ",b")).
  reflexivity.
Defined.

Lemma count_char_app (c : ascii) (a b : str) :
  count_char c (a ++ b) = count_char c a + count_char c b.
Proof. unfold count_char. apply count_occ_app. Qed.

Lemma count_char_le (c : ascii) (s : str) : count_char c s <= length s.
Proof.
  induction s as [|x s IH]; [simpl; lia |].
  rewrite count_char_cons. destruct (Ascii.eqb x c); simpl; lia.
Qed.

Lemma double_dquote_count (f : str) :
  count_char dquote (flat_map double_dquote f) = 2 * count_char dquote f
  /\ length (flat_map double_dquote f) = length f + count_char dquote f.
Proof.
  induction f as [|c r [IH1 IH2]]; [now split |].
  simpl flat_map. rewrite count_char_app, length_app, IH1, IH2, count_char_cons.
  unfold double_dquote. ascii_cases c dquote.
  - subst c. rewrite !count_char_cons, !ascii_eqb_refl. simpl. split; lia.
  - rewrite count_char_cons. apply ascii_eqb_false in E. rewrite E.
    simpl. split; lia.
Qed.

(** X8. An encoded field has an even number of double quotes, so it
    leaves no quote open. A quoted one is longer than the field by two and
    by the number of its double quotes; no encoding is longer than twice
    the field and two. *)
Theorem format_csv_field_size (f : str) :
  Nat.even (count_char dquote (format_csv_field f)) = true
  /\ (needs_quotes f ->
      length (format_csv_field f) = length f + count_char dquote f + 2)
  /\ length f <= length (format_csv_field f) <= 2 * length f + 2.
Proof.
  destruct (double_dquote_count f) as [Hc Hl].
  pose proof (count_char_le dquote f) as Hle.
  assert (Q : length (quoted f) = length f + count_char dquote f + 2).
  { unfold quoted. rewrite !length_app, Hl. simpl. lia. }
  destruct (needs_quotes_dec f) as [N|N].
  - rewrite format_csv_field_quoted by assumption. repeat split; try lia.
    unfold quoted. rewrite !count_char_app, Hc, !count_char_cons, ascii_eqb_refl.
    change (count_char dquote []) with 0.
    replace (1 + 0 + (2 * count_char dquote f + (1 + 0)))
      with (2 * S (count_char dquote f)) by lia.
    rewrite Nat.even_mul. reflexivity.
  - rewrite format_csv_field_plain by assumption. repeat split; try lia.
    + assert (Z0 : count_char dquote f = 0).
      { unfold count_char. apply count_occ_not_In. unfold needs_quotes in N. tauto. }
      now rewrite Z0.
    + tauto.
Qed.

Lemma format_csv_field_size_witness :
  length (format_csv_field (lit "a" ++ [dquote] ++ lit ",b")) = 4 + 1 + 2.
Proof.
  apply (proj1 (proj2 (format_csv_field_size (lit "a" ++ [dquote] ++ lit ",b")))).
  left. vm_compute. tauto.
Defined.

(** ** A row written and read back *)

Lemma only_dquotes_repeat (k : nat) : only_dquotes (repeat dquote (S k)) = true.
Proof.
  unfold only_dquotes. cbn [repeat].
  induction k as [|k IH]; [reflexivity |].
  cbn [repeat forallb] in *. now rewrite ascii_eqb_refl in *.
Qed.

Lemma only_dquotes_rest (k : nat) (c : ascii) (r : str) :
  c <> dquote -> only_dquotes (repeat dquote k ++ c :: r) = false.
Proof.
  intros Hc. apply ascii_eqb_false in Hc.
  assert (F : forallb (fun x => Ascii.eqb x dquote) (repeat dquote k ++ c :: r) = false).
  { rewrite forallb_app. simpl. rewrite Hc. simpl. apply andb_false_r. }
  unfold only_dquotes. now destruct (repeat dquote k ++ c :: r).
Qed.

Lemma only_dquotes_true (f : str) :
  only_dquotes f = true -> exists k, f = repeat dquote (S k).
Proof.
  intros H. destruct (leading_dquotes f) as (k & rest & -> & Pk).
  destruct rest as [|c r].
  - rewrite app_nil_r in *. destruct k as [|k]; [discriminate |]. now exists k.
  - rewrite only_dquotes_rest in H; [discriminate |].
    simpl in Pk. now apply ascii_eqb_false.
Qed.

(** The tokenizer on one encoded field, with fields [f] ended before. *)
Lemma scan_loop_format (x : str) (f : list str) :
  scan_loop (Scanner (format_csv_field x) f [] false)
  = Scanner [] f (read_back x) false.
Proof.
  destruct (leading_dquotes x) as (k & rest & -> & Pk).
  destruct rest as [|c r].
  - rewrite app_nil_r. destruct k as [|k]; [reflexivity |].
    rewrite format_csv_field_quoted by (right; left; now left).
    rewrite scan_loop_quoted_dquotes. unfold read_back.
    now rewrite only_dquotes_repeat.
  - assert (Hc : c <> dquote) by (simpl in Pk; now apply ascii_eqb_false).
    unfold read_back. rewrite only_dquotes_rest by assumption.
    destruct (needs_quotes_dec (repeat dquote k ++ c :: r)) as [N|N].
    + rewrite format_csv_field_quoted by assumption.
      now rewrite scan_loop_quoted_rest.
    + rewrite format_csv_field_plain by assumption.
      unfold needs_quotes in N. rewrite scan_loop_plain by tauto. reflexivity.
Qed.

(** The tokenizer on encoded fields joined by commas. *)
Lemma scan_loop_join (fs : list str) :
  forall (x : str) (f : list str),
    let st := scan_loop (Scanner (join_commas (map format_csv_field (x :: fs))) f [] false) in
    fields st ++ [field_buffer st] = f ++ map read_back (x :: fs)
    /\ in_quotes st = false.
Proof.
  induction fs as [|y fs IH]; intros x f; cbv zeta.
  - simpl. rewrite scan_loop_format. now split.
  - change (join_commas (map format_csv_field (x :: y :: fs)))
      with (format_csv_field x ++ comma :: join_commas (map format_csv_field (y :: fs))).
    rewrite scan_loop_app by reflexivity. cbv zeta.
    rewrite scan_loop_format. cbn [ss fields field_buffer in_quotes].
    rewrite scan_loop_separator.
    destruct (IH y (f ++ [read_back x])) as [H1 H2]. cbv zeta in H1, H2.
    rewrite H1, H2. split; [| reflexivity].
    now rewrite <- app_assoc.
Qed.

Lemma map_read_back (l : list str) :
  Forall (fun f => only_dquotes f = false) l -> map read_back l = l.
Proof.
  induction 1 as [|y l Hy Hl IH]; [reflexivity |].
  cbn [map]. rewrite IH. unfold read_back. now rewrite Hy.
Qed.

(** X6. Fields encoded, joined by commas and tokenized come back as they
    were, when there is at least one and none is made of double quotes
    only. *)
Theorem parse_join_format (fs : list str) :
  fs <> [] ->
  Forall (fun f => only_dquotes f = false) fs ->
  parse_csv_line (join_commas (map format_csv_field fs)) = fs.
Proof.
  intros Hne Hq. destruct fs as [|x fs]; [congruence |].
  unfold parse_csv_line, scan_line, scanner_init.
  destruct (scan_loop_join fs x []) as [H _]. cbv zeta in H. rewrite H.
  rewrite app_nil_l. now apply map_read_back.
Qed.

Lemma parse_join_format_witness :
  parse_csv_line
    (join_commas (map format_csv_field [lit "a,b"; []; [dquote] ++ lit "c"; lit "d"]))
  = [lit "a,b"; []; [dquote] ++ lit "c"; lit "d"].
Proof.
  apply (parse_join_format [lit "a,b"; []; [dquote] ++ lit "c"; lit "d"]).
  - discriminate.
  - repeat constructor.
Defined.

(** X9. Whatever the fields, as many come back as were written, each
    either as it was or, if it is made of double quotes only, with one
    double quote more, and the tokenizer ends outside quotes. *)
Theorem parse_join_format_count (fs : list str) :
  fs <> [] ->
  parse_csv_line (join_commas (map format_csv_field fs)) = map read_back fs
  /\ length (parse_csv_line (join_commas (map format_csv_field fs))) = length fs
  /\ in_quotes (scan_line (join_commas (map format_csv_field fs))) = false.
Proof.
  intros Hne. destruct fs as [|x fs]; [congruence |].
  unfold parse_csv_line, scan_line, scanner_init.
  destruct (scan_loop_join fs x []) as [H1 H2]. cbv zeta in H1, H2.
  rewrite H1, H2, app_nil_l, length_map. now repeat split.
Qed.

Lemma parse_join_format_count_witness :
  parse_csv_line (join_commas (map format_csv_field [[dquote]; lit "a"]))
  = [[dquote; dquote]; lit "a"]
  /\ length (parse_csv_line (join_commas (map format_csv_field [[dquote]; lit "a"]))) = 2
  /\ in_quotes (scan_line (join_commas (map format_csv_field [[dquote]; lit "a"]))) = false.
Proof.
  apply (parse_join_format_count [[dquote]; lit "a"]). discriminate.
Defined.

(** ** The splitter *)

Lemma skip_leading_spaces_spec (r : str) :
  peek_is space (skip_leading_spaces r) = false
  /\ exists j, r = repeat space j ++ skip_leading_spaces r.
Proof.
  induction r as [|c r [IH1 (j & IH2)]]; [split; [reflexivity | now exists 0] |].
  simpl. ascii_cases c space.
  - subst c. split; [exact IH1 |]. exists (S j). simpl. now rewrite <- IH2.
  - split; [simpl; now apply ascii_eqb_false | now exists 0].
Qed.

(** A string either has no space or is cut at its first one. *)
Lemma first_space_cases (combined : str) :
  ~ In space combined
  \/ exists g r, combined = g ++ space :: r /\ ~ In space g.
Proof.
  destruct (StdString.find space combined) as [i|] eqn:F.
  - right. apply find_Some in F as (g & r & -> & _ & Hg). now exists g, r.
  - left. now apply find_None.
Qed.

(** X10. The group never has a space in it, and the last name never
    starts with one. *)
Theorem splitGroupLastName_no_space (combined : str) :
  ~ In space (fst (splitGroupLastName combined))
  /\ peek_is space (snd (splitGroupLastName combined)) = false.
Proof.
  destruct (first_space_cases combined) as [N | (g & r & -> & Hg)].
  - rewrite split_no_space by assumption. simpl. split; [tauto |].
    destruct combined as [|c s]; [reflexivity |]. simpl.
    apply ascii_eqb_false. intros ->. apply N. now left.
  - rewrite split_at_first_space by assumption. simpl. split; [assumption |].
    apply skip_leading_spaces_spec.
Qed.

(** X11. The splitter drops spaces and nothing else: the combined string
    is the group, a run of spaces and the last name, and the run is empty
    only when the string has no space at all. *)
Theorem splitGroupLastName_parts (combined : str) :
  exists k,
    combined = fst (splitGroupLastName combined) ++ repeat space k
               ++ snd (splitGroupLastName combined)
    /\ (k = 0 <-> ~ In space combined).
Proof.
  destruct (first_space_cases combined) as [N | (g & r & -> & Hg)].
  - exists 0. rewrite split_no_space by assumption. simpl. tauto.
  - rewrite split_at_first_space by assumption. simpl.
    destruct (skip_leading_spaces_spec r) as [_ (j & Hj)].
    exists (S j). split.
    + simpl. now rewrite <- Hj.
    + split; [discriminate |]. intros N. exfalso. apply N.
      apply in_or_app. right. now left.
Qed.

Lemma splitGroupLastName_parts_witness :
  exists k,
    lit "ab  cd" = lit "ab" ++ repeat space k ++ lit "cd"
    /\ (k = 0 <-> ~ In space (lit "ab  cd")).
Proof. exact (splitGroupLastName_parts (lit "ab  cd")). Defined.

(** ** The row mapper *)

Lemma output_fields_undefined (input_fields : list str) (contact_group_label : str) :
  length input_fields < 7 ->
  output_fields input_fields contact_group_label = None.
Proof.
  intros H. unfold output_fields.
  destruct input_fields as [|f0 [|f1 [|f2 [|f3 [|f4 [|f5 [|f6 rest]]]]]]];
    simpl in H |- *; try lia; try reflexivity;
    destruct (splitGroupLastName f3) as [[|g group] lastName]; reflexivity.
Qed.

(** X12. The test on the number of columns in [main] is exactly what the
    mapper needs: its reads of [input_fields] are all in range when there
    are seven fields or more, and one of them is out of range when there
    are fewer. *)
Theorem output_fields_in_range (input_fields : list str) (contact_group_label : str) :
  output_fields input_fields contact_group_label = None
  <-> length input_fields < INPUT_NUM_COLUMNS_EXPECTED.
Proof.
  unfold INPUT_NUM_COLUMNS_EXPECTED. split.
  - intros H. destruct (le_lt_dec 7 (length input_fields)) as [L|L]; [| exact L].
    destruct (output_fields_defined input_fields contact_group_label L)
      as (row & E & _).
    congruence.
  - apply output_fields_undefined.
Qed.

Lemma output_fields_in_range_witness :
  output_fields (map lit ["t"; "r"; "n"; "g l"; "e"; "m"]%string) (lit "2024") = None.
Proof.
  apply (proj2 (output_fields_in_range
                  (map lit ["t"; "r"; "n"; "g l"; "e"; "m"]%string) (lit "2024"))).
  vm_compute. lia.
Defined.

(** X13. The output row depends on fields 2 to 6 of the input row and on
    nothing else of it: neither the first two fields nor any field after
    the seventh changes it. *)
Theorem output_fields_reads (input_fields input_fields' : list str)
        (contact_group_label : str) :
  (forall i, 2 <= i < 7 -> input_fields !! i = input_fields' !! i) ->
  output_fields input_fields contact_group_label
  = output_fields input_fields' contact_group_label.
Proof.
  intros H. unfold output_fields, INPUT_IDX_FIRSTNAME, INPUT_IDX_GROUPLASTNAME,
    INPUT_IDX_EMAILCREATED, INPUT_IDX_EMAILLOGIN, INPUT_IDX_PHONE.
  rewrite (H 2), (H 3), (H 4), (H 5), (H 6) by lia. reflexivity.
Qed.

Lemma output_fields_reads_witness :
  output_fields (map lit ["t"; "r"; "n"; "g l"; "e"; "m"; "p"]%string) (lit "2024")
  = output_fields (map lit ["x"; "y"; "n"; "g l"; "e"; "m"; "p"; "z"]%string) (lit "2024").
Proof.
  apply (output_fields_reads
           (map lit ["t"; "r"; "n"; "g l"; "e"; "m"; "p"]%string)
           (map lit ["x"; "y"; "n"; "g l"; "e"; "m"; "p"; "z"]%string)
           (lit "2024")).
  intros i Hi.
  destruct i as [|[|[|[|[|[|[|i]]]]]]]; try lia; reflexivity.
Defined.

(** X14. Every data line the program writes is a line its own tokenizer
    reads as 23 fields, as many as the header line it writes has, and
    with no quote left open. *)
Theorem data_line_fields (input_fields : list str) (contact_group_label : str)
        (row : list str) :
  output_fields input_fields contact_group_label = Some row ->
  exists data,
    write_row row = data ++ [newline]
    /\ length (parse_csv_line data) = NUM_OUTPUT_COLUMNS
    /\ length (parse_csv_line data) = length (parse_csv_line output_header)
    /\ in_quotes (scan_line data) = false.
Proof.
  intros Hrow.
  assert (L : length row = 23).
  { destruct (le_lt_dec 7 (length input_fields)) as [H7|H7].
    - destruct (output_fields_defined input_fields contact_group_label H7)
        as (row' & E & Hl).
      congruence.
    - rewrite output_fields_undefined in Hrow by exact H7. discriminate. }
  exists (join_commas (map format_csv_field row)).
  split; [apply write_row_join |].
  destruct row as [|x row]; [discriminate |].
  unfold parse_csv_line, scan_line, scanner_init.
  destruct (scan_loop_join row x []) as [H1 H2]. cbv zeta in H1, H2.
  rewrite H1, H2, app_nil_l, length_map, L. repeat split.
Qed.

Lemma data_line_fields_witness :
  exists data,
    write_row ([[dquote]; []; [dquote]] ++ replicate 13 []
               ++ [[dquote]; []; [dquote]; []; [dquote]; []; [dquote]])
    = data ++ [newline]
    /\ length (parse_csv_line data) = NUM_OUTPUT_COLUMNS
    /\ length (parse_csv_line data) = length (parse_csv_line output_header)
    /\ in_quotes (scan_line data) = false.
Proof.
  apply (data_line_fields (replicate 7 [dquote]) [dquote]).
  reflexivity.
Defined.

(** ** The whole run *)

(** What a turn of the loop does to the output file and the count, once
    the header is behind. *)
Lemma row_loop_after_header (contact_group_label : str) (lines : list str) :
  forall st st',
    is_first_line st = false ->
    row_loop contact_group_label lines st = Some st' ->
    output_file st'
    = output_file st
      ++ concat (map (data_line contact_group_label)
                     (List.filter enough_fields (List.filter nonempty lines)))
    /\ processed_count st'
       = (processed_count st
          + Z.of_nat (length (List.filter enough_fields (List.filter nonempty lines))))%Z.
Proof.
  induction lines as [|l ls IH]; intros st st' Hf H.
  - injection H as <-. simpl. rewrite app_nil_r. split; [reflexivity | lia].
  - cbn [row_loop] in H.
    destruct (process_line contact_group_label l st) as [st1|] eqn:E;
      [| discriminate].
    simpl in H.
    pose proof (process_line_after_header _ _ _ _ Hf E) as Hf1.
    destruct (IH st1 st' Hf1 H) as [IHo IHc]. rewrite IHo, IHc.
    apply process_line_cases in E as [_ E].
    destruct E as [[-> ->]|[(_ & E & _)|[(Hl & _ & H7 & ->)|(Hl & _ & H7 & _ & row & Hr & ->)]]].
    + simpl. split; reflexivity.
    + congruence.
    + assert (Ee : enough_fields l = false)
        by (unfold enough_fields, INPUT_NUM_COLUMNS_EXPECTED; apply Nat.leb_gt; lia).
      destruct l as [|c l]; [congruence |]. cbn [List.filter nonempty].
      rewrite Ee. simpl. split; reflexivity.
    + assert (Ee : enough_fields l = true)
        by (unfold enough_fields, INPUT_NUM_COLUMNS_EXPECTED; apply Nat.leb_le; lia).
      destruct l as [|c l]; [congruence |]. cbn [List.filter nonempty].
      rewrite Ee.
      cbn [map concat length output_file processed_count].
      unfold data_line at 2. rewrite Hr.
      split; [now rewrite <- app_assoc | lia].
Qed.

(** The same from the start of the loop: the first line that is not
    empty is left out. *)
Lemma row_loop_from_start (contact_group_label : str) (lines : list str) :
  forall st st',
    is_first_line st = true ->
    row_loop contact_group_label lines st = Some st' ->
    output_file st'
    = output_file st
      ++ concat (map (data_line contact_group_label) (data_rows lines))
    /\ processed_count st'
       = (processed_count st + Z.of_nat (length (data_rows lines)))%Z.
Proof.
  unfold data_rows.
  induction lines as [|l ls IH]; intros st st' Hf H.
  - injection H as <-. simpl. rewrite app_nil_r. split; [reflexivity | lia].
  - cbn [row_loop] in H.
    destruct (process_line contact_group_label l st) as [st1|] eqn:E;
      [| discriminate].
    simpl in H.
    apply process_line_cases in E as [_ E].
    destruct E as [[-> ->]|[(Hl & _ & ->)|[(_ & E & _)|(_ & E & _)]]];
      try congruence.
    + apply (IH _ st') in H; [| exact Hf]. exact H.
    + destruct l as [|c l]; [congruence |]. cbn [List.filter nonempty tail].
      apply row_loop_after_header in H; [| reflexivity]. exact H.
Qed.

(** Every line read is counted, and is either answered with a warning,
    or taken for the header, or written as a row. *)
Lemma row_loop_accounting (contact_group_label : str) (lines : list str) :
  forall st st',
    row_loop contact_group_label lines st = Some st' ->
    line_number st' = (line_number st + Z.of_nat (length lines))%Z
    /\ (Z.of_nat (length (cerr st')) + processed_count st' + header_seen st'
        = Z.of_nat (length (cerr st)) + processed_count st + header_seen st
          + Z.of_nat (length lines))%Z.
Proof.
  induction lines as [|l ls IH]; intros st st' H.
  - injection H as <-. simpl. lia.
  - cbn [row_loop] in H.
    destruct (process_line contact_group_label l st) as [st1|] eqn:E;
      [| discriminate].
    simpl in H. destruct (IH st1 st' H) as [IH1 IH2]. rewrite IH1, IH2.
    apply process_line_cases in E as [_ E]. unfold header_seen.
    destruct E as [[_ ->]|[(_ & Hf & ->)|[(_ & Hf & _ & ->)|(_ & Hf & _ & _ & row & _ & ->)]]];
      cbn [is_first_line line_number processed_count cerr length];
      rewrite ?Hf, ?length_app; cbn [length]; lia.
Qed.

Lemma main_runs (cin input_file : str) :
  (Z.of_nat (length (getlines input_file)) <= INT_MAX)%Z ->
  exists st,
    row_loop (first_line cin) (getlines input_file) run_init = Some st
    /\ main cin input_file = Some st.
Proof.
  intros Hn.
  destruct (row_loop_succeeds (first_line cin) (getlines input_file) run_init)
    as [st E]; [simpl; lia | simpl; lia |].
  exists st. split; [exact E | exact E].
Qed.

(** X15. At the end of a run the line counter is the number of lines of
    the input file, and every line is accounted for once: by a warning, as
    the header, or as a processed row. *)
Theorem main_accounting (cin input_file : str) :
  (Z.of_nat (length (getlines input_file)) <= INT_MAX)%Z ->
  exists st,
    main cin input_file = Some st
    /\ line_number st = Z.of_nat (length (getlines input_file))
    /\ Z.of_nat (length (getlines input_file))
       = (Z.of_nat (length (cerr st)) + processed_count st + header_seen st)%Z.
Proof.
  intros Hn. destruct (main_runs cin input_file Hn) as (st & E & Hm).
  exists st. split; [exact Hm |].
  apply row_loop_accounting in E as [E1 E2].
  unfold header_seen in E2 at 2. simpl in E1, E2. lia.
Qed.

Lemma main_accounting_witness :
  exists st,
    main (lit "2024")
         ([newline] ++ lit "Time,Role,Name" ++ [newline] ++ sample_row ++ [newline]
          ++ lit "a,b" ++ [newline]) = Some st
    /\ line_number st = 4%Z
    /\ 4%Z = (Z.of_nat (length (cerr st)) + processed_count st + header_seen st)%Z.
Proof.
  apply (main_accounting (lit "2024")
           ([newline] ++ lit "Time,Role,Name" ++ [newline] ++ sample_row ++ [newline]
            ++ lit "a,b" ++ [newline])).
  vm_compute. discriminate.
Defined.

(** X16. The output file is the byte order mark, the header line and
    then, in the order of the input, the line of every data row: of the
    lines that are not empty, each one after the first that has seven
    fields or more. The count reported is the number of those rows. *)
Theorem main_output (cin input_file : str) :
  (Z.of_nat (length (getlines input_file)) <= INT_MAX)%Z ->
  exists st,
    main cin input_file = Some st
    /\ output_file st
       = BOM ++ output_header ++ [newline]
         ++ concat (map (data_line (first_line cin)) (data_rows (getlines input_file)))
    /\ processed_count st = Z.of_nat (length (data_rows (getlines input_file))).
Proof.
  intros Hn. destruct (main_runs cin input_file Hn) as (st & E & Hm).
  exists st. split; [exact Hm |].
  apply row_loop_from_start in E as [E1 E2]; [| reflexivity].
  split; [| exact E2].
  rewrite E1. cbn [output_file run_init]. now rewrite <- !app_assoc.
Qed.

Lemma main_output_witness :
  exists st,
    main (lit "2024")
         ([newline] ++ lit "Time,Role,Name" ++ [newline] ++ sample_row ++ [newline]
          ++ lit "a,b" ++ [newline]) = Some st
    /\ output_file st
       = BOM ++ output_header ++ [newline]
         ++ concat (map (data_line (first_line (lit "2024"))) [sample_row])
    /\ processed_count st = 1%Z.
Proof.
  apply (main_output (lit "2024")
           ([newline] ++ lit "Time,Role,Name" ++ [newline] ++ sample_row ++ [newline]
            ++ lit "a,b" ++ [newline])).
  vm_compute. discriminate.
Defined.

(** The warnings of a turn are kept by the turns that follow. *)
Lemma row_loop_cerr_kept (contact_group_label : str) (lines : list str) :
  forall st st' m,
    row_loop contact_group_label lines st = Some st' ->
    In m (cerr st) -> In m (cerr st').
Proof.
  induction lines as [|l ls IH]; intros st st' m H Hm.
  - now injection H as <-.
  - cbn [row_loop] in H.
    destruct (process_line contact_group_label l st) as [st1|] eqn:E;
      [| discriminate].
    simpl in H. apply (IH st1 st' m H).
    apply process_line_cases in E as [_ E].
    destruct E as [[_ ->]|[(_ & _ & ->)|[(_ & _ & _ & ->)|(_ & _ & _ & _ & row & _ & ->)]]];
      cbn [cerr]; auto using in_or_app.
Qed.

(** Every warning given while the lines after [pre] are read names one
    of them. *)
Lemma row_loop_warnings_sound (contact_group_label : str) (lines : list str) :
  forall (pre : list str) st st' m,
    line_number st = Z.of_nat (length pre) ->
    row_loop contact_group_label lines st = Some st' ->
    In m (cerr st') ->
    In m (cerr st) \/ warning_names_line (pre ++ lines) m.
Proof.
  induction lines as [|l ls IH]; intros pre st st' m Hn H Hm.
  - injection H as <-. now left.
  - cbn [row_loop] in H.
    destruct (process_line contact_group_label l st) as [st1|] eqn:E;
      [| discriminate].
    simpl in H.
    apply process_line_cases in E as [_ E].
    assert (Hidx : Z.to_nat (line_number st + 1 - 1) = length pre) by lia.
    assert (Hn1 : line_number st1 = Z.of_nat (length (pre ++ [l]))).
    { rewrite length_app. simpl.
      destruct E as [[_ ->]|[(_ & _ & ->)|[(_ & _ & _ & ->)|(_ & _ & _ & _ & row & _ & ->)]]];
        cbn [line_number]; lia. }
    destruct (IH (pre ++ [l]) st1 st' m Hn1 H Hm) as [H1|H1].
    + destruct E as [[-> ->]|[(_ & _ & ->)|[(Hl & _ & H7 & ->)|(_ & _ & _ & _ & row & _ & ->)]]];
        cbn [cerr] in H1; auto.
      * apply in_app_or in H1 as [H1|[<-|[]]]; [now left |]. right.
        simpl. split; [lia |]. rewrite Hidx. now apply list_lookup_middle.
      * apply in_app_or in H1 as [H1|[<-|[]]]; [now left |]. right.
        simpl. split; [lia |]. rewrite Hidx.
        split; [now apply list_lookup_middle | auto].
    + right. now rewrite <- app_assoc in H1.
Qed.

(** Every empty line is answered, and so is every line with too few
    fields that comes after a line that is not empty. *)
Lemma row_loop_warnings_complete (contact_group_label : str) (lines : list str) :
  forall (pre : list str) st st',
    line_number st = Z.of_nat (length pre) ->
    row_loop contact_group_label lines st = Some st' ->
    (forall i, lines !! i = Some [] ->
       In (EmptyLineWarning (Z.of_nat (length pre + i) + 1)) (cerr st'))
    /\ (forall i line,
          lines !! i = Some line -> line <> [] ->
          length (parse_csv_line line) < 7 ->
          is_first_line st = false
          \/ (exists j h, j < i /\ lines !! j = Some h /\ h <> []) ->
          In (TooFewColumnsWarning (Z.of_nat (length pre + i) + 1)
                (length (parse_csv_line line)) line) (cerr st')).
Proof.
  induction lines as [|l ls IH]; intros pre st st' Hn H.
  - split; intros i; intros; now rewrite lookup_nil in *.
  - cbn [row_loop] in H.
    destruct (process_line contact_group_label l st) as [st1|] eqn:E;
      [| discriminate].
    simpl in H.
    apply process_line_cases in E as [_ E].
    assert (Hn1 : line_number st1 = Z.of_nat (length (pre ++ [l]))).
    { rewrite length_app. simpl.
      destruct E as [[_ ->]|[(_ & _ & ->)|[(_ & _ & _ & ->)|(_ & _ & _ & _ & row & _ & ->)]]];
        cbn [line_number]; lia. }
    destruct (IH (pre ++ [l]) st1 st' Hn1 H) as [IH1 IH2].
    assert (Hlen : forall i, length (pre ++ [l]) + i = length pre + S i)
      by (intros i; rewrite length_app; simpl; lia).
    split.
    + intros [|i] Hi.
      * injection Hi as ->. apply (row_loop_cerr_kept _ _ _ _ _ H).
        destruct E as [[_ ->]|[(E & _)|[(E & _)|(E & _)]]]; try congruence.
        cbn [cerr]. apply in_or_app. right. left. f_equal. lia.
      * specialize (IH1 i Hi). now rewrite Hlen in IH1.
    + intros [|i] line Hi Hl H7 Hh.
      * injection Hi as ->. apply (row_loop_cerr_kept _ _ _ _ _ H).
        destruct Hh as [Hf|(j & h & Hj & _)]; [| lia].
        destruct E as [[E _]|[(_ & E & _)|[(_ & _ & _ & ->)|(_ & _ & E & _)]]];
          try congruence; try lia.
        cbn [cerr]. apply in_or_app. right. left. f_equal. lia.
      * specialize (IH2 i line Hi Hl H7). rewrite Hlen in IH2. apply IH2.
        destruct Hh as [Hf|(j & h & Hj & Hjh & Hh)].
        -- left. destruct E as [[_ ->]|[(_ & _ & ->)|[(_ & _ & _ & ->)|(_ & _ & _ & _ & row & _ & ->)]]];
             cbn [is_first_line]; auto.
        -- destruct j as [|j].
           ++ left. injection Hjh as ->.
              destruct E as [[E _]|[(_ & _ & ->)|[(_ & _ & _ & ->)|(_ & _ & _ & _ & row & _ & ->)]]];
                cbn [is_first_line]; auto; congruence.
           ++ right. exists j, h. repeat split; [lia | exact Hjh | exact Hh].
Qed.

(** X17. The warnings of a run tell the truth and leave nothing out:
    each names a line of the input file by its number, an empty line for
    the one warning and a line of fewer than seven fields, with their
    number, for the other; every empty line has its warning, and so has
    every line of fewer than seven fields that comes after a line that is
    not empty. *)
Theorem main_warnings (cin input_file : str) :
  (Z.of_nat (length (getlines input_file)) <= INT_MAX)%Z ->
  exists st,
    main cin input_file = Some st
    /\ (forall m, In m (cerr st) -> warning_names_line (getlines input_file) m)
    /\ (forall i, getlines input_file !! i = Some [] ->
          In (EmptyLineWarning (Z.of_nat i + 1)) (cerr st))
    /\ (forall i j line h,
          getlines input_file !! i = Some line -> line <> [] ->
          length (parse_csv_line line) < 7 ->
          j < i -> getlines input_file !! j = Some h -> h <> [] ->
          In (TooFewColumnsWarning (Z.of_nat i + 1)
                (length (parse_csv_line line)) line) (cerr st)).
Proof.
  intros Hn. destruct (main_runs cin input_file Hn) as (st & E & Hm).
  exists st. split; [exact Hm |].
  destruct (row_loop_warnings_complete _ _ [] run_init st eq_refl E) as [C1 C2].
  split; [| split].
  - intros m Hin.
    destruct (row_loop_warnings_sound _ _ [] run_init st m eq_refl E Hin) as [[]|H].
    exact H.
  - intros i Hi. apply (C1 i Hi).
  - intros i j line h Hi Hl H7 Hj Hjh Hh.
    apply (C2 i line Hi Hl H7). right. now exists j, h.
Qed.

Lemma main_warnings_witness :
  exists st,
    main (lit "2024")
         ([newline] ++ lit "Time,Role,Name" ++ [newline] ++ sample_row ++ [newline]
          ++ lit "a,b" ++ [newline]) = Some st
    /\ In (EmptyLineWarning 1) (cerr st)
    /\ In (TooFewColumnsWarning 4 2 (lit "a,b")) (cerr st).
Proof.
  destruct (main_warnings (lit "2024")
              ([newline] ++ lit "Time,Role,Name" ++ [newline] ++ sample_row
               ++ [newline] ++ lit "a,b" ++ [newline]))
    as (st & E & _ & C1 & C2); [vm_compute; discriminate |].
  exists st. split; [exact E |]. split.
  - apply (C1 0). reflexivity.
  - apply (C2 3 1 (lit "a,b") (lit "Time,Role,Name"));
      [vm_compute; reflexivity | discriminate | vm_compute; lia | lia
      | vm_compute; reflexivity | discriminate].
Defined.

(** The label *)

Lemma break_line_first (l rest : str) :
  no_newline l -> break_line (l ++ newline :: rest) = (l, rest).
Proof.
  unfold no_newline. induction 1 as [|c l Hc Hl IH]; [reflexivity |].
  simpl. apply ascii_eqb_false in Hc. now rewrite Hc, IH.
Qed.

Lemma break_line_whole (l : str) : no_newline l -> break_line l = (l, []).
Proof.
  unfold no_newline. induction 1 as [|c l Hc Hl IH]; [reflexivity |].
  simpl. apply ascii_eqb_false in Hc. now rewrite Hc, IH.
Qed.

(** X18. Of the standard input the run uses the first line and nothing
    else: what follows the first newline changes nothing, and the label
    never has a newline in it. *)
Theorem main_reads_first_line (l rest input_file : str) :
  no_newline l ->
  main (l ++ newline :: rest) input_file = main l input_file
  /\ first_line (l ++ newline :: rest) = l.
Proof.
  intros Hl.
  assert (F1 : first_line (l ++ newline :: rest) = l).
  { unfold first_line, getline.
    destruct (l ++ newline :: rest) as [|c s] eqn:E; [now destruct l |].
    rewrite <- E. now rewrite break_line_first. }
  assert (F2 : first_line l = l).
  { unfold first_line, getline. destruct l as [|c s]; [reflexivity |].
    now rewrite break_line_whole. }
  split; [| exact F1].
  change (main (l ++ newline :: rest) input_file)
    with (row_loop (first_line (l ++ newline :: rest)) (getlines input_file) run_init).
  change (main l input_file)
    with (row_loop (first_line l) (getlines input_file) run_init).
  now rewrite F1, F2.
Qed.

Lemma main_reads_first_line_witness :
  main (lit "2024" ++ newline :: lit "more") sample_row = main (lit "2024") sample_row
  /\ first_line (lit "2024" ++ newline :: lit "more") = lit "2024".
Proof.
  apply (main_reads_first_line (lit "2024") (lit "more") sample_row).
  repeat constructor; discriminate.
Defined.

(** ** A line without double quotes, from the input to the output *)

Lemma only_dquotes_none (f : str) :
  Forall (fun c => c <> dquote) f -> only_dquotes f = false.
Proof.
  destruct 1 as [|c r Hc Hr]; [reflexivity |].
  unfold only_dquotes. simpl. apply ascii_eqb_false in Hc. now rewrite Hc.
Qed.

(** The label is put at position 16 of a row that does not depend on
    it otherwise. *)
Lemma output_fields_label (input_fields : list str) (contact_group_label : str)
      (row : list str) :
  output_fields input_fields contact_group_label = Some row ->
  exists row0,
    output_fields input_fields [] = Some row0
    /\ row = <[16 := contact_group_label]> row0.
Proof.
  unfold output_fields.
  destruct input_fields as [|f0 [|f1 [|f2 [|f3 [|f4 [|f5 [|f6 rest]]]]]]];
    simpl; try discriminate;
    try (destruct (splitGroupLastName f3) as [[|g group] lastName]; discriminate).
  destruct (splitGroupLastName f3) as [[|g group] lastName];
    intros [= <-]; eexists; split; reflexivity.
Qed.

(** X19. A line without double quotes and with seven fields or more goes
    through unharmed: the data line written for it, tokenized again, is
    the output row, field by field, whenever the label is not made of
    double quotes only. *)
Theorem data_line_read_back (contact_group_label line : str) (row : list str) :
  ~ In dquote line ->
  only_dquotes contact_group_label = false ->
  output_fields (parse_csv_line line) contact_group_label = Some row ->
  exists data,
    write_row row = data ++ [newline]
    /\ parse_csv_line data = row.
Proof.
  intros Hd Hlab Hrow.
  exists (join_commas (map format_csv_field row)).
  split; [apply write_row_join |].
  destruct (output_fields_label _ _ _ Hrow) as (row0 & Hrow0 & ->).
  assert (H0 : Forall (Forall (fun c => c <> dquote)) row0).
  { apply (output_fields_Forall _ (parse_csv_line line) []);
      [discriminate | | constructor | exact Hrow0].
    apply parse_csv_line_Forall, Forall_forall.
    intros c Hc ->. apply Hd. now apply list_elem_of_In. }
  assert (L0 : length row0 = 23).
  { destruct (le_lt_dec 7 (length (parse_csv_line line))) as [L|L].
    - destruct (output_fields_defined _ [] L) as (r & E & Hl). congruence.
    - rewrite output_fields_undefined in Hrow0 by exact L. discriminate. }
  destruct row0 as [|x row0]; [discriminate |].
  unfold parse_csv_line, scan_line, scanner_init.
  change (<[16:=contact_group_label]> (x :: row0))
    with (x :: <[15:=contact_group_label]> row0).
  destruct (scan_loop_join (<[15:=contact_group_label]> row0) x []) as [H _].
  cbv zeta in H. rewrite H, app_nil_l.
  apply map_read_back.
  change (x :: <[15:=contact_group_label]> row0)
    with (<[16:=contact_group_label]> (x :: row0)).
  apply Forall_insert; [| exact Hlab].
  eapply Forall_impl; [exact H0 |]. intros f. apply only_dquotes_none.
Qed.

Lemma data_line_read_back_witness :
  exists data,
    write_row ([lit "Ivan"; []; lit "G-1 Petrov jr"] ++ replicate 13 []
               ++ [lit "2024"; []; lit "new@x.com"; []; lit "login@x.com"; [];
                   lit "+7999"])
    = data ++ [newline]
    /\ parse_csv_line data
       = [lit "Ivan"; []; lit "G-1 Petrov jr"] ++ replicate 13 []
         ++ [lit "2024"; []; lit "new@x.com"; []; lit "login@x.com"; []; lit "+7999"].
Proof.
  apply (data_line_read_back
           (lit "2024") (lit ",Role,Ivan,G-1   Petrov jr,login@x.com,new@x.com,+7999")).
  - not_in.
  - reflexivity.
  - reflexivity.
Defined.

(** * The header line and the count of rows *)

(** The body of the loop comes to its end for every line while the
    counters are below [INT_MAX], and does one of four things. *)
Lemma process_line_total (contact_group_label line : str) (st : run_state) :
  (line_number st < INT_MAX)%Z ->
  (processed_count st < INT_MAX)%Z ->
  exists st',
    process_line contact_group_label line st = Some st'
    /\ line_number st' = (line_number st + 1)%Z
    /\ ((line = []
         /\ is_first_line st' = is_first_line st
         /\ cerr st' = cerr st ++ [EmptyLineWarning (line_number st + 1)]
         /\ output_file st' = output_file st
         /\ processed_count st' = processed_count st)
        \/ (line <> [] /\ is_first_line st = true
            /\ is_first_line st' = false
            /\ cerr st' = cerr st
            /\ output_file st' = output_file st
            /\ processed_count st' = processed_count st)
        \/ (line <> [] /\ is_first_line st = false
            /\ length (parse_csv_line line) < 7
            /\ is_first_line st' = false
            /\ cerr st' = cerr st ++ [TooFewColumnsWarning (line_number st + 1)
                                        (length (parse_csv_line line)) line]
            /\ output_file st' = output_file st
            /\ processed_count st' = processed_count st)
        \/ (line <> [] /\ is_first_line st = false
            /\ 7 <= length (parse_csv_line line)
            /\ is_first_line st' = false
            /\ cerr st' = cerr st
            /\ exists row,
                 output_fields (parse_csv_line line) contact_group_label = Some row
                 /\ output_file st' = output_file st ++ write_row row
                 /\ processed_count st' = (processed_count st + 1)%Z)).
Proof.
  intros Hn Hp. unfold process_line. rewrite (int_incr_Some _ Hn). simpl.
  destruct line as [|c l].
  - eexists. split; [reflexivity |]. split; [reflexivity |]. left.
    now repeat split.
  - destruct (is_first_line st) eqn:Ef.
    + eexists. split; [reflexivity |]. split; [reflexivity |]. right; left.
      now repeat split.
    + destruct (Nat.ltb_spec (length (parse_csv_line (c :: l)))
                  INPUT_NUM_COLUMNS_EXPECTED) as [Hlt|Hge].
      * eexists. split; [reflexivity |]. split; [reflexivity |].
        right; right; left. now repeat split.
      * destruct (output_fields_defined _ contact_group_label Hge) as (row & Hr & _).
        rewrite Hr. simpl. rewrite (int_incr_Some _ Hp). simpl.
        eexists. split; [reflexivity |]. split; [reflexivity |].
        right; right; right. repeat split; try assumption; try discriminate.
        now exists row.
Qed.

(** The loop never sets the flag again. *)
Lemma row_loop_flag (contact_group_label : str) (lines : list str) :
  forall st st',
    is_first_line st = false ->
    row_loop contact_group_label lines st = Some st' ->
    is_first_line st' = false.
Proof.
  induction lines as [|l ls IH]; intros st st' Hf H.
  - now injection H as <-.
  - cbn [row_loop] in H.
    destruct (process_line contact_group_label l st) as [st1|] eqn:E;
      [| discriminate].
    simpl in H. apply (IH st1 st'); [| exact H].
    now apply (process_line_after_header contact_group_label l st).
Qed.

(** The text written for a data row is one line: no newline but the one
    that ends it. *)
Lemma data_line_one_line (contact_group_label line : str) :
  no_newline contact_group_label -> no_newline line ->
  enough_fields line = true ->
  exists r,
    data_line contact_group_label line = r ++ [newline] /\ no_newline r.
Proof.
  intros Hlab Hline He.
  apply Nat.leb_le in He.
  destruct (output_fields_defined _ contact_group_label He) as (row & Hr & _).
  exists (join_commas (map format_csv_field row)). split.
  - unfold data_line. rewrite Hr. apply write_row_join.
  - now apply (data_line_no_newline contact_group_label line).
Qed.

Lemma data_rows_lines (lines : list str) (l : str) :
  In l (data_rows lines) -> In l lines /\ enough_fields l = true.
Proof.
  unfold data_rows. intros H. apply filter_In in H as [H He].
  split; [| exact He].
  assert (Ht : In l (List.filter nonempty lines)).
  { destruct (List.filter nonempty lines) as [|x xs]; [destruct H |].
    now right. }
  now apply filter_In in Ht as [Ht _].
Qed.

Lemma data_lines_rows (contact_group_label : str) (ls : list str) :
  (forall l, In l ls ->
     exists r, data_line contact_group_label l = r ++ [newline] /\ no_newline r) ->
  exists rows,
    map (fun r => r ++ [newline]) rows = map (data_line contact_group_label) ls
    /\ Forall no_newline rows.
Proof.
  induction ls as [|l ls IH]; intros H.
  - exists []. split; [reflexivity | constructor].
  - destruct (H l (or_introl eq_refl)) as (r & Hr & Hn).
    destruct IH as (rows & Hm & Hf); [intros x Hx; apply H; now right |].
    exists (r :: rows). split; [| now constructor].
    cbn [map]. now rewrite Hm, Hr.
Qed.

(** C8, as the code has it. The header is the first line that is not
    empty: after [k] empty lines, each skipped with a warning, the next
    line is dropped unparsed, with no output and no warning. From there on
    no line is dropped as the header, whatever comes: the flag stays
    cleared after every line, empty ones too; an empty line is skipped with
    its warning, and every line that is not empty is tokenized and then
    either refused for having fewer than seven fields or written as a data
    row. For the whole file: the output is the header line and then the
    data line of every line after the header that is not empty and has
    seven fields or more, in their order. *)
Theorem header_is_first_nonempty_line
        (contact_group_label : str) (k : nat) (header : str) (rest : list str) :
  header <> [] ->
  (Z.of_nat k < INT_MAX)%Z ->
  row_loop contact_group_label (repeat [] k ++ header :: rest) run_init
  = row_loop contact_group_label rest (after_header k)
  /\ (forall (st st' : run_state) (line : str),
        is_first_line st = false ->
        line <> [] ->
        process_line contact_group_label line st = Some st' ->
        is_first_line st' = false
        /\ ((length (parse_csv_line line) < 7
             /\ cerr st' = cerr st ++ [TooFewColumnsWarning (line_number st + 1)
                                         (length (parse_csv_line line)) line]
             /\ output_file st' = output_file st
             /\ processed_count st' = processed_count st)
            \/ (7 <= length (parse_csv_line line)
                /\ exists row,
                     output_fields (parse_csv_line line) contact_group_label = Some row
                     /\ output_file st' = output_file st ++ write_row row
                     /\ processed_count st' = (processed_count st + 1)%Z
                     /\ cerr st' = cerr st)))
  /\ (forall (st : run_state) (line : str),
        is_first_line st = false ->
        (line_number st < INT_MAX)%Z ->
        (processed_count st < INT_MAX)%Z ->
        exists st',
          process_line contact_group_label line st = Some st'
          /\ is_first_line st' = false
          /\ (line = [] ->
              cerr st' = cerr st ++ [EmptyLineWarning (line_number st + 1)]
              /\ output_file st' = output_file st
              /\ processed_count st' = processed_count st)
          /\ (line <> [] -> length (parse_csv_line line) < 7 ->
              cerr st' = cerr st ++ [TooFewColumnsWarning (line_number st + 1)
                                       (length (parse_csv_line line)) line]
              /\ output_file st' = output_file st
              /\ processed_count st' = processed_count st)
          /\ (line <> [] -> 7 <= length (parse_csv_line line) ->
              exists row,
                output_fields (parse_csv_line line) contact_group_label = Some row
                /\ output_file st' = output_file st ++ write_row row
                /\ processed_count st' = (processed_count st + 1)%Z
                /\ cerr st' = cerr st))
  /\ ((Z.of_nat (k + 1 + length rest) <= INT_MAX)%Z ->
      exists st',
        row_loop contact_group_label (repeat [] k ++ header :: rest) run_init
        = Some st'
        /\ is_first_line st' = false
        /\ output_file st'
           = BOM ++ output_header ++ [newline]
             ++ concat (map (data_line contact_group_label)
                            (List.filter enough_fields (List.filter nonempty rest)))
        /\ processed_count st'
           = Z.of_nat (length (List.filter enough_fields (List.filter nonempty rest)))).
Proof.
  intros Hh Hk.
  assert (P1 : row_loop contact_group_label (repeat [] k ++ header :: rest) run_init
               = row_loop contact_group_label rest (after_header k)).
  { rewrite row_loop_empty_lines by (cbn [line_number run_init]; lia).
    cbn [row_loop].
    rewrite process_line_header;
      [| assumption | reflexivity | cbn [line_number run_init]; lia].
    reflexivity. }
  split; [exact P1 |]. split; [| split].
  - intros st st' line Hf Hl H.
    split; [eapply process_line_after_header; eassumption |].
    apply process_line_cases in H as [_ H].
    destruct H as [[E _]|[(_ & E & _)|[(_ & _ & H7 & ->)|(_ & _ & H7 & _ & row & Hr & ->)]]];
      [congruence | congruence | |].
    + left. now repeat split.
    + right. split; [assumption |]. exists row. now repeat split.
  - intros st line Hf Hn Hp.
    destruct (process_line_total contact_group_label line st Hn Hp)
      as (st' & E & _ & C).
    exists st'. split; [exact E |].
    destruct C as [(Hl & Hf' & Hc & Ho & Hpc)
                  |[(Hl & Hf0 & _)
                  |[(Hl & _ & H7 & Hf' & Hc & Ho & Hpc)
                  |(Hl & _ & H7 & Hf' & Hc & row & Hr & Ho & Hpc)]]].
    + split; [congruence |]. repeat split; auto; intros; congruence.
    + congruence.
    + split; [exact Hf' |]. split; [congruence |]. split; [now auto |].
      intros _ H7'. lia.
    + split; [exact Hf' |]. split; [congruence |]. split; [intros _ H7'; lia |].
      intros _ _. exists row. now repeat split.
  - intros Hlen. rewrite P1.
    destruct (row_loop_succeeds contact_group_label rest (after_header k))
      as [st' E]; [cbn [line_number after_header]; lia
                  | cbn [line_number processed_count after_header]; lia |].
    exists st'. split; [exact E |].
    split; [now apply (row_loop_flag contact_group_label rest (after_header k)) |].
    apply row_loop_after_header in E as [E1 E2]; [| reflexivity].
    split.
    + rewrite E1. cbn [output_file after_header]. now rewrite <- !app_assoc.
    + rewrite E2. cbn [processed_count after_header]. lia.
Qed.

Lemma header_is_first_nonempty_line_witness :
  row_loop (lit "2024")
    (repeat [] 2 ++ lit "Time,Role,Name" :: [[]; sample_row]) run_init
  = row_loop (lit "2024") [[]; sample_row] (after_header 2)
  /\ exists st',
       row_loop (lit "2024")
         (repeat [] 2 ++ lit "Time,Role,Name" :: [[]; sample_row]) run_init
       = Some st'
       /\ is_first_line st' = false
       /\ output_file st'
          = BOM ++ output_header ++ [newline]
            ++ concat (map (data_line (lit "2024"))
                           (List.filter enough_fields
                              (List.filter nonempty [[]; sample_row])))
       /\ processed_count st'
          = Z.of_nat (length (List.filter enough_fields
                                (List.filter nonempty [[]; sample_row]))).
Proof.
  pose proof (header_is_first_nonempty_line
                (lit "2024") 2 (lit "Time,Role,Name") [[]; sample_row]
                ltac:(discriminate) ltac:(reflexivity)) as (H1 & _ & _ & H4).
  split; [exact H1 |].
  apply H4. vm_compute. discriminate.
Defined.

(** C10. A run over a file whose lines can be counted in an [int] comes
    to its end, and then the output file is the byte order mark, the header
    line and as many lines, each ended by its newline and with no other
    newline in it, as the count of processed rows says; these lines are the
    data lines of the data rows of the file, one for each and in their
    order. Turn by turn, while the counters are below [INT_MAX]: the body
    of the loop comes to its end; for a line of at least seven fields after
    the header it appends one line of encoded fields and adds one to the
    count; for every other line it leaves the output file and the count as
    they are. *)
Theorem processed_count_is_data_lines :
  (forall cin input_file : str,
     (Z.of_nat (length (getlines input_file)) <= INT_MAX)%Z ->
     exists st rows,
       main cin input_file = Some st
       /\ output_file st
          = BOM ++ output_header ++ [newline]
            ++ concat (map (fun r => r ++ [newline]) rows)
       /\ Forall no_newline rows
       /\ processed_count st = Z.of_nat (length rows)
       /\ map (fun r => r ++ [newline]) rows
          = map (data_line (first_line cin)) (data_rows (getlines input_file))
       /\ length rows = length (data_rows (getlines input_file)))
  /\ (forall (contact_group_label line : str) (st st' : run_state),
        process_line contact_group_label line st = Some st' ->
        (output_file st' = output_file st
         /\ processed_count st' = processed_count st)
        \/ (line <> [] /\ is_first_line st = false
            /\ 7 <= length (parse_csv_line line)
            /\ exists row,
                 output_fields (parse_csv_line line) contact_group_label = Some row
                 /\ output_file st'
                    = output_file st
                      ++ join_commas (map format_csv_field row) ++ [newline]
                 /\ processed_count st' = (processed_count st + 1)%Z))
  /\ (forall (contact_group_label line : str) (st : run_state),
        (line_number st < INT_MAX)%Z ->
        (processed_count st < INT_MAX)%Z ->
        exists st',
          process_line contact_group_label line st = Some st'
          /\ (line <> [] -> is_first_line st = false ->
              7 <= length (parse_csv_line line) ->
              exists row,
                output_fields (parse_csv_line line) contact_group_label = Some row
                /\ output_file st'
                   = output_file st
                     ++ join_commas (map format_csv_field row) ++ [newline]
                /\ processed_count st' = (processed_count st + 1)%Z)
          /\ (line = [] \/ is_first_line st = true
              \/ length (parse_csv_line line) < 7 ->
              output_file st' = output_file st
              /\ processed_count st' = processed_count st)).
Proof.
  split; [| split].
  - intros cin input_file Hn.
    destruct (main_runs cin input_file Hn) as (st & E & Hm).
    apply row_loop_from_start in E as [E1 E2]; [| reflexivity].
    assert (Hlab : no_newline (first_line cin)).
    { unfold first_line. destruct cin as [|c r]; [constructor |].
      cbn [getline]. pose proof (break_line_no_newline (c :: r)) as B.
      now destruct (break_line (c :: r)). }
    destruct (data_lines_rows (first_line cin) (data_rows (getlines input_file)))
      as (rows & Hmap & Hrows).
    { intros l Hl. apply data_rows_lines in Hl as [Hl He].
      apply data_line_one_line; [exact Hlab | | exact He].
      pose proof (getlines_no_newline input_file) as G.
      rewrite Forall_forall in G. apply G. now apply list_elem_of_In. }
    assert (Hlen : length rows = length (data_rows (getlines input_file))).
    { apply (f_equal (@length str)) in Hmap. now rewrite !length_map in Hmap. }
    exists st, rows. split; [exact Hm |]. split; [| split; [exact Hrows |]].
    + rewrite E1, Hmap. cbn [output_file run_init]. now rewrite <- !app_assoc.
    + split; [| split; [exact Hmap | exact Hlen]].
      rewrite E2, Hlen. cbn [processed_count run_init]. lia.
  - intros label line st st' H.
    apply process_line_cases in H as [_ H].
    destruct H as [[_ ->]|[(_ & _ & ->)|[(_ & _ & _ & ->)|(Hl & Hf & H7 & _ & row & Hr & ->)]]];
      try (left; now split).
    right. repeat split; try assumption.
    exists row. repeat split; [assumption |].
    simpl. now rewrite write_row_join.
  - intros label line st Hn Hp.
    destruct (process_line_total label line st Hn Hp) as (st' & E & _ & C).
    exists st'. split; [exact E |].
    destruct C as [(Hl & _ & _ & Ho & Hpc)
                  |[(Hl & Hf0 & _ & _ & Ho & Hpc)
                  |[(Hl & Hf0 & H7 & _ & _ & Ho & Hpc)
                  |(Hl & Hf0 & H7 & _ & _ & row & Hr & Ho & Hpc)]]].
    + split; [intros; congruence | now intros _].
    + split; [intros; congruence | now intros _].
    + split; [intros; lia | now intros _].
    + split.
      * intros _ _ _. exists row. repeat split; [exact Hr | | exact Hpc].
        now rewrite Ho, write_row_join.
      * intros [H|[H|H]]; [congruence | congruence | lia].
Qed.

Lemma processed_count_is_data_lines_witness :
  (exists st rows,
     main (lit "2024")
          (lit "Time,Role,Name" ++ [newline] ++ sample_row ++ [newline]
           ++ lit "a,b" ++ [newline]) = Some st
     /\ output_file st
        = BOM ++ output_header ++ [newline]
          ++ concat (map (fun r => r ++ [newline]) rows)
     /\ Forall no_newline rows
     /\ processed_count st = Z.of_nat (length rows)
     /\ map (fun r => r ++ [newline]) rows
        = map (data_line (first_line (lit "2024")))
              (data_rows (getlines (lit "Time,Role,Name" ++ [newline] ++ sample_row
                                    ++ [newline] ++ lit "a,b" ++ [newline])))
     /\ length rows
        = length (data_rows (getlines (lit "Time,Role,Name" ++ [newline]
                                       ++ sample_row ++ [newline]
                                       ++ lit "a,b" ++ [newline]))))
  /\ exists st' row,
       process_line (lit "2024") sample_row (after_header 0) = Some st'
       /\ output_fields (parse_csv_line sample_row) (lit "2024") = Some row
       /\ output_file st'
          = output_file (after_header 0)
            ++ join_commas (map format_csv_field row) ++ [newline]
       /\ processed_count st' = (processed_count (after_header 0) + 1)%Z.
Proof.
  split.
  - apply (proj1 processed_count_is_data_lines).
    vm_compute. discriminate.
  - destruct (proj2 (proj2 processed_count_is_data_lines)
                (lit "2024") sample_row (after_header 0)
                ltac:(reflexivity) ltac:(reflexivity)) as (st' & E & A & _).
    destruct A as (row & Hr & Ho & Hp);
      [discriminate | reflexivity | vm_compute; lia |].
    exists st', row. repeat split; assumption.
Defined.
